(** * python-pptx: connector end points and the xmlchemy descriptors

    A shallow embedding of [pptx/shapes/connector.py] and
    [pptx/oxml/xmlchemy.py], with the properties their specification
    states about them. *)

From Stdlib Require Import ZArith Lia Ascii String DecimalString DecimalZ DecimalPos.
From stdpp Require Import base option list sorting strings gmap.

(** ** Connector end points ([pptx/shapes/connector.py]) *)

Module Connector.
Local Open Scope Z_scope.

(** The [<p:cxnSp>] element as [Connector] reads and writes it: the offset
    [x], [y] and extent [cx], [cy] of its [a:xfrm], and the two flip flags.
    The element class providing these six properties is not part of the
    module; each is a plain integer or boolean slot here. *)
Record cxnSp : Type := CxnSp {
  x : Z; y : Z; cx : Z; cy : Z; flipH : bool; flipV : bool }.

(** Assignments [cxnSp.x = v], [cxnSp.cx = v], ... *)
Definition set_x (e : cxnSp) (v : Z) : cxnSp :=
  {| x := v; y := y e; cx := cx e; cy := cy e; flipH := flipH e; flipV := flipV e |}.
Definition set_y (e : cxnSp) (v : Z) : cxnSp :=
  {| x := x e; y := v; cx := cx e; cy := cy e; flipH := flipH e; flipV := flipV e |}.
Definition set_cx (e : cxnSp) (v : Z) : cxnSp :=
  {| x := x e; y := y e; cx := v; cy := cy e; flipH := flipH e; flipV := flipV e |}.
Definition set_cy (e : cxnSp) (v : Z) : cxnSp :=
  {| x := x e; y := y e; cx := cx e; cy := v; flipH := flipH e; flipV := flipV e |}.
Definition set_flipH (e : cxnSp) (b : bool) : cxnSp :=
  {| x := x e; y := y e; cx := cx e; cy := cy e; flipH := b; flipV := flipV e |}.
Definition set_flipV (e : cxnSp) (b : bool) : cxnSp :=
  {| x := x e; y := y e; cx := cx e; cy := cy e; flipH := flipH e; flipV := b |}.

(** [Connector.begin_x] (getter). *)
Definition begin_x (e : cxnSp) : Z :=
  if flipH e then x e + cx e else x e.

(** [Connector.begin_x] (setter). *)
Definition begin_x_setter (e : cxnSp) (value : Z) : cxnSp :=
  let '(x0, cx0, new_x) := (x e, cx e, value) in
  if flipH e then
    let old_x := x0 + cx0 in
    let dx := Z.abs (new_x - old_x) in
    if new_x >=? old_x then set_cx e (cx0 + dx)
    else if dx <=? cx0 then set_cx e (cx0 - dx)
    else set_cx (set_x (set_flipH e false) new_x) (dx - cx0)
  else
    let dx := Z.abs (new_x - x0) in
    if new_x <=? x0 then set_cx (set_x e new_x) (cx0 + dx)
    else if dx <=? cx0 then set_cx (set_x e new_x) (cx0 - dx)
    else set_cx (set_x (set_flipH e true) (x0 + cx0)) (dx - cx0).

(** [Connector.begin_y] (getter). *)
Definition begin_y (e : cxnSp) : Z :=
  if flipV e then y e + cy e else y e.

(** [Connector.begin_y] (setter). *)
Definition begin_y_setter (e : cxnSp) (value : Z) : cxnSp :=
  let '(y0, cy0, new_y) := (y e, cy e, value) in
  if flipV e then
    let old_y := y0 + cy0 in
    let dy := Z.abs (new_y - old_y) in
    if new_y >=? old_y then set_cy e (cy0 + dy)
    else if dy <=? cy0 then set_cy e (cy0 - dy)
    else set_cy (set_y (set_flipV e false) new_y) (dy - cy0)
  else
    let dy := Z.abs (new_y - y0) in
    if new_y <=? y0 then set_cy (set_y e new_y) (cy0 + dy)
    else if dy <=? cy0 then set_cy (set_y e new_y) (cy0 - dy)
    else set_cy (set_y (set_flipV e true) (y0 + cy0)) (dy - cy0).

(** [Connector.end_x] (getter). *)
Definition end_x (e : cxnSp) : Z :=
  if flipH e then x e else x e + cx e.

(** [Connector.end_x] (setter). *)
Definition end_x_setter (e : cxnSp) (value : Z) : cxnSp :=
  let '(x0, cx0, new_x) := (x e, cx e, value) in
  if flipH e then
    let dx := Z.abs (new_x - x0) in
    if new_x <=? x0 then set_cx (set_x e new_x) (cx0 + dx)
    else if dx <=? cx0 then set_cx (set_x e new_x) (cx0 - dx)
    else set_cx (set_x (set_flipH e false) (x0 + cx0)) (dx - cx0)
  else
    let old_x := x0 + cx0 in
    let dx := Z.abs (new_x - old_x) in
    if new_x >=? old_x then set_cx e (cx0 + dx)
    else if dx <=? cx0 then set_cx e (cx0 - dx)
    else set_cx (set_x (set_flipH e true) new_x) (dx - cx0).

(** [Connector.end_y] (getter). *)
Definition end_y (e : cxnSp) : Z :=
  if flipV e then y e else y e + cy e.

(** [Connector.end_y] (setter). *)
Definition end_y_setter (e : cxnSp) (value : Z) : cxnSp :=
  let '(y0, cy0, new_y) := (y e, cy e, value) in
  if flipV e then
    let dy := Z.abs (new_y - y0) in
    if new_y <=? y0 then set_cy (set_y e new_y) (cy0 + dy)
    else if dy <=? cy0 then set_cy (set_y e new_y) (cy0 - dy)
    else set_cy (set_y (set_flipV e false) (y0 + cy0)) (dy - cy0)
  else
    let old_y := y0 + cy0 in
    let dy := Z.abs (new_y - old_y) in
    if new_y >=? old_y then set_cy e (cy0 + dy)
    else if dy <=? cy0 then set_cy e (cy0 - dy)
    else set_cy (set_y (set_flipV e true) new_y) (dy - cy0).

(** What one end-point setter must do: the end it writes reads back [v],
    the opposite end stays where it was, the extent stays non-negative. *)
Definition moves_one_end (get other ext : cxnSp -> Z) (e e' : cxnSp) (v : Z) : Prop :=
  get e' = v /\ other e' = other e /\ 0 <= ext e'.

(** The horizontal setters leave the vertical slots alone, and conversely. *)
Definition keeps_vertical (e e' : cxnSp) : Prop :=
  y e' = y e /\ cy e' = cy e /\ flipV e' = flipV e.
Definition keeps_horizontal (e e' : cxnSp) : Prop :=
  x e' = x e /\ cx e' = cx e /\ flipH e' = flipH e.

Ltac crush_setter :=
  repeat match goal with
  | |- context [Z.geb ?a ?b] => destruct (Z.geb_spec a b)
  | |- context [Z.leb ?a ?b] => destruct (Z.leb_spec a b)
  end; cbn; repeat split; lia.

Lemma begin_x_setter_spec e v :
  0 <= cx e -> moves_one_end begin_x end_x cx e (begin_x_setter e v) v.
Proof.
  destruct e as [x0 y0 cx0 cy0 [] fv]; unfold moves_one_end, begin_x_setter,
    begin_x, end_x; cbn; intros H; crush_setter.
Qed.

Lemma end_x_setter_spec e v :
  0 <= cx e -> moves_one_end end_x begin_x cx e (end_x_setter e v) v.
Proof.
  destruct e as [x0 y0 cx0 cy0 [] fv]; unfold moves_one_end, end_x_setter,
    begin_x, end_x; cbn; intros H; crush_setter.
Qed.

Lemma begin_y_setter_spec e v :
  0 <= cy e -> moves_one_end begin_y end_y cy e (begin_y_setter e v) v.
Proof.
  destruct e as [x0 y0 cx0 cy0 fh []]; unfold moves_one_end, begin_y_setter,
    begin_y, end_y; cbn; intros H; crush_setter.
Qed.

Lemma end_y_setter_spec e v :
  0 <= cy e -> moves_one_end end_y begin_y cy e (end_y_setter e v) v.
Proof.
  destruct e as [x0 y0 cx0 cy0 fh []]; unfold moves_one_end, end_y_setter,
    begin_y, end_y; cbn; intros H; crush_setter.
Qed.

Lemma x_setters_keep_vertical e v :
  keeps_vertical e (begin_x_setter e v) /\ keeps_vertical e (end_x_setter e v).
Proof.
  destruct e as [x0 y0 cx0 cy0 [] fv];
    unfold keeps_vertical, begin_x_setter, end_x_setter; cbn;
    repeat match goal with
    | |- context [if ?b then _ else _] => destruct b
    end; cbn; auto.
Qed.

Lemma y_setters_keep_horizontal e v :
  keeps_horizontal e (begin_y_setter e v) /\ keeps_horizontal e (end_y_setter e v).
Proof.
  destruct e as [x0 y0 cx0 cy0 fh []];
    unfold keeps_horizontal, begin_y_setter, end_y_setter; cbn;
    repeat match goal with
    | |- context [if ?b then _ else _] => destruct b
    end; cbn; auto.
Qed.

(** C10. From any connector state with non-negative extents, assigning [v]
    to [begin_x] makes [begin_x] read [v], leaves [end_x] where it was and
    keeps [cx] non-negative; the same holds for [end_x] against [begin_x],
    and for [begin_y] and [end_y] against each other with [cy].  The
    horizontal setters do not touch [y], [cy], [flipV], nor the vertical
    ones [x], [cx], [flipH]. *)
Theorem endpoint_setter_moves_only_its_end (e : cxnSp) (v : Z) :
  0 <= cx e -> 0 <= cy e ->
  (moves_one_end begin_x end_x cx e (begin_x_setter e v) v /\
   moves_one_end end_x begin_x cx e (end_x_setter e v) v /\
   moves_one_end begin_y end_y cy e (begin_y_setter e v) v /\
   moves_one_end end_y begin_y cy e (end_y_setter e v) v) /\
  (keeps_vertical e (begin_x_setter e v) /\ keeps_vertical e (end_x_setter e v) /\
   keeps_horizontal e (begin_y_setter e v) /\ keeps_horizontal e (end_y_setter e v)).
Proof.
  intros Hx Hy. split.
  - auto using begin_x_setter_spec, end_x_setter_spec,
      begin_y_setter_spec, end_y_setter_spec.
  - pose proof (x_setters_keep_vertical e v) as [? ?].
    pose proof (y_setters_keep_horizontal e v) as [? ?]. auto.
Qed.

(** A flipped connector whose begin point is dragged left past its end
    point: the flip is undone. *)
Definition flipped_line : cxnSp :=
  {| x := 10; y := 20; cx := 5; cy := 0; flipH := true; flipV := false |}.

Example begin_x_setter_unflips :
  begin_x_setter flipped_line 3 =
  {| x := 3; y := 20; cx := 7; cy := 0; flipH := false; flipV := false |}.
Proof. reflexivity. Qed.

Lemma endpoint_setter_moves_only_its_end_witness :
  (0 <= cx flipped_line /\ 0 <= cy flipped_line) /\
  begin_x (begin_x_setter flipped_line 3) = 3 /\
  end_x (begin_x_setter flipped_line 3) = end_x flipped_line.
Proof.
  assert (Hx : 0 <= cx flipped_line) by (cbn; lia).
  assert (Hy : 0 <= cy flipped_line) by (cbn; lia).
  split; [split; assumption|].
  destruct (endpoint_setter_moves_only_its_end flipped_line 3 Hx Hy)
    as [[(Hb & He & _) _] _].
  split; assumption.
Defined.

(** *** Further properties of the end-point setters *)

Ltac crush_cases :=
  cbn;
  repeat match goal with
  | |- context [Z.geb ?a ?b] => destruct (Z.geb_spec a b); cbn
  | |- context [Z.leb ?a ?b] => destruct (Z.leb_spec a b); cbn
  | |- context [Z.ltb ?a ?b] => destruct (Z.ltb_spec a b); cbn
  end.

(** Where the setters leave the element: its offset is the smaller of the
    two end points, its extent their distance, and it is flipped exactly
    when the begin point lies beyond the end point; when both coincide
    the flip flag stays as it was. *)
Theorem endpoint_setter_normal_form (e : cxnSp) (v : Z) :
  0 <= cx e -> 0 <= cy e ->
  (x (begin_x_setter e v) = Z.min v (end_x e) /\
   cx (begin_x_setter e v) = Z.abs (v - end_x e) /\
   flipH (begin_x_setter e v) =
     (if end_x e <? v then true else if v <? end_x e then false else flipH e)) /\
  (x (end_x_setter e v) = Z.min v (begin_x e) /\
   cx (end_x_setter e v) = Z.abs (v - begin_x e) /\
   flipH (end_x_setter e v) =
     (if v <? begin_x e then true else if begin_x e <? v then false else flipH e)) /\
  (y (begin_y_setter e v) = Z.min v (end_y e) /\
   cy (begin_y_setter e v) = Z.abs (v - end_y e) /\
   flipV (begin_y_setter e v) =
     (if end_y e <? v then true else if v <? end_y e then false else flipV e)) /\
  (y (end_y_setter e v) = Z.min v (begin_y e) /\
   cy (end_y_setter e v) = Z.abs (v - begin_y e) /\
   flipV (end_y_setter e v) =
     (if v <? begin_y e then true else if begin_y e <? v then false else flipV e)).
Proof.
  intros Hx Hy. destruct e as [x0 y0 cx0 cy0 fh fv]. cbn in Hx, Hy.
  unfold begin_x_setter, end_x_setter, begin_y_setter, end_y_setter,
    begin_x, end_x, begin_y, end_y.
  repeat split; destruct fh, fv; crush_cases; try reflexivity; lia.
Qed.

Lemma endpoint_setter_normal_form_witness :
  (0 <= cx flipped_line /\ 0 <= cy flipped_line) /\
  x (begin_x_setter flipped_line 3) = 3 /\
  cx (begin_x_setter flipped_line 3) = 7 /\
  flipH (begin_x_setter flipped_line 3) = false.
Proof.
  assert (Hx : 0 <= cx flipped_line) by (cbn; lia).
  assert (Hy : 0 <= cy flipped_line) by (cbn; lia).
  split; [split; assumption|].
  destruct (endpoint_setter_normal_form flipped_line 3 Hx Hy)
    as [(H1 & H2 & H3) _].
  split; [exact H1|]. split; [exact H2|exact H3].
Defined.

(** Writing to an end point the position it already has changes nothing,
    whatever the state. *)
Theorem endpoint_setter_same_position (e : cxnSp) :
  begin_x_setter e (begin_x e) = e /\
  end_x_setter e (end_x e) = e /\
  begin_y_setter e (begin_y e) = e /\
  end_y_setter e (end_y e) = e.
Proof.
  destruct e as [x0 y0 cx0 cy0 fh fv].
  unfold begin_x_setter, end_x_setter, begin_y_setter, end_y_setter,
    begin_x, end_x, begin_y, end_y, set_x, set_y, set_cx, set_cy.
  repeat split; destruct fh, fv; crush_cases; f_equal; lia.
Qed.

(** The connector seen from its other end. *)
Definition mirrorH (e : cxnSp) : cxnSp := set_flipH e (negb (flipH e)).
Definition mirrorV (e : cxnSp) : cxnSp := set_flipV e (negb (flipV e)).

(** Moving the end point is moving the begin point of the mirrored
    connector. *)
Theorem end_setter_is_mirrored_begin_setter (e : cxnSp) (v : Z) :
  end_x_setter e v = mirrorH (begin_x_setter (mirrorH e) v) /\
  end_y_setter e v = mirrorV (begin_y_setter (mirrorV e) v).
Proof.
  destruct e as [x0 y0 cx0 cy0 fh fv].
  unfold begin_x_setter, end_x_setter, begin_y_setter, end_y_setter,
    mirrorH, mirrorV.
  split; destruct fh, fv; crush_cases; reflexivity.
Qed.

Lemma cxnSp_eq (e e' : cxnSp) :
  x e = x e' -> y e = y e' -> cx e = cx e' -> cy e = cy e' ->
  flipH e = flipH e' -> flipV e = flipV e' -> e = e'.
Proof. destruct e, e'; cbn; intros; subst; reflexivity. Qed.

Lemma begin_x_setter_fields e v :
  0 <= cx e ->
  x (begin_x_setter e v) = Z.min v (end_x e) /\
  cx (begin_x_setter e v) = Z.abs (v - end_x e) /\
  flipH (begin_x_setter e v) =
    (if end_x e <? v then true else if v <? end_x e then false else flipH e).
Proof.
  intros Hx. destruct e as [x0 y0 cx0 cy0 fh fv]. cbn in Hx.
  unfold begin_x_setter, end_x.
  repeat split; destruct fh; crush_cases; try reflexivity; lia.
Qed.

Lemma end_x_setter_fields e v :
  0 <= cx e ->
  x (end_x_setter e v) = Z.min v (begin_x e) /\
  cx (end_x_setter e v) = Z.abs (v - begin_x e) /\
  flipH (end_x_setter e v) =
    (if v <? begin_x e then true else if begin_x e <? v then false else flipH e).
Proof.
  intros Hx. destruct e as [x0 y0 cx0 cy0 fh fv]. cbn in Hx.
  unfold end_x_setter, begin_x.
  repeat split; destruct fh; crush_cases; try reflexivity; lia.
Qed.

(** What a horizontal setter writes depends on the horizontal slots only,
    and likewise for a vertical one. *)
Lemma x_setters_read_horizontal e e' v :
  keeps_horizontal e e' ->
  keeps_horizontal (begin_x_setter e v) (begin_x_setter e' v) /\
  keeps_horizontal (end_x_setter e v) (end_x_setter e' v).
Proof.
  destruct e as [x0 y0 cx0 cy0 fh fv], e' as [x1 y1 cx1 cy1 fh1 fv1].
  unfold keeps_horizontal. cbn. intros (-> & -> & ->).
  unfold begin_x_setter, end_x_setter.
  split; destruct fh; crush_cases; auto.
Qed.

Lemma y_setters_read_vertical e e' v :
  keeps_vertical e e' ->
  keeps_vertical (begin_y_setter e v) (begin_y_setter e' v) /\
  keeps_vertical (end_y_setter e v) (end_y_setter e' v).
Proof.
  destruct e as [x0 y0 cx0 cy0 fh fv], e' as [x1 y1 cx1 cy1 fh1 fv1].
  unfold keeps_vertical. cbn. intros (-> & -> & ->).
  unfold begin_y_setter, end_y_setter.
  split; destruct fv; crush_cases; auto.
Qed.

Lemma x_setter_y_setter_commute e v w :
  begin_x_setter (begin_y_setter e w) v = begin_y_setter (begin_x_setter e v) w /\
  end_x_setter (end_y_setter e w) v = end_y_setter (end_x_setter e v) w /\
  begin_x_setter (end_y_setter e w) v = end_y_setter (begin_x_setter e v) w /\
  end_x_setter (begin_y_setter e w) v = begin_y_setter (end_x_setter e v) w.
Proof.
  destruct (y_setters_keep_horizontal e w) as [Hby Hey].
  destruct (x_setters_keep_vertical e v) as [Hbx Hex].
  destruct (x_setters_read_horizontal _ _ v Hby) as [(A1 & A2 & A3) (A4 & A5 & A6)].
  destruct (x_setters_read_horizontal _ _ v Hey) as [(B4 & B5 & B6) (B1 & B2 & B3)].
  destruct (y_setters_read_vertical _ _ w Hbx) as [(C1 & C2 & C3) (C4 & C5 & C6)].
  destruct (y_setters_read_vertical _ _ w Hex) as [(D4 & D5 & D6) (D1 & D2 & D3)].
  destruct (x_setters_keep_vertical (begin_y_setter e w) v)
    as [(E1 & E2 & E3) (E4 & E5 & E6)].
  destruct (x_setters_keep_vertical (end_y_setter e w) v)
    as [(F4 & F5 & F6) (F1 & F2 & F3)].
  destruct (y_setters_keep_horizontal (begin_x_setter e v) w)
    as [(G1 & G2 & G3) (G4 & G5 & G6)].
  destruct (y_setters_keep_horizontal (end_x_setter e v) w)
    as [(I4 & I5 & I6) (I1 & I2 & I3)].
  repeat split; apply cxnSp_eq; congruence.
Qed.

(** Both end points can be placed in either order: the connector then runs
    from [v] to [w], with the same offset and extent, and the same flip
    flag unless the two points coincide.  A horizontal and a vertical
    assignment commute outright, whichever end each of them moves. *)
Theorem endpoint_setters_commute (e : cxnSp) (v w : Z) :
  0 <= cx e ->
  let e1 := end_x_setter (begin_x_setter e v) w in
  let e2 := begin_x_setter (end_x_setter e w) v in
  (begin_x e1 = v /\ end_x e1 = w) /\
  (begin_x e2 = v /\ end_x e2 = w) /\
  x e1 = x e2 /\ cx e1 = cx e2 /\ (v <> w -> e1 = e2) /\
  begin_x_setter (begin_y_setter e w) v = begin_y_setter (begin_x_setter e v) w /\
  end_x_setter (end_y_setter e w) v = end_y_setter (end_x_setter e v) w /\
  begin_x_setter (end_y_setter e w) v = end_y_setter (begin_x_setter e v) w /\
  end_x_setter (begin_y_setter e w) v = begin_y_setter (end_x_setter e v) w.
Proof.
  intros Hx e1 e2.
  destruct (begin_x_setter_spec e v Hx) as (Hb1 & Hb2 & Hb3).
  destruct (end_x_setter_spec e w Hx) as (Ha1 & Ha2 & Ha3).
  destruct (end_x_setter_spec (begin_x_setter e v) w Hb3) as (H11 & H12 & _).
  destruct (begin_x_setter_spec (end_x_setter e w) v Ha3) as (H21 & H22 & _).
  destruct (end_x_setter_fields (begin_x_setter e v) w Hb3) as (F11 & F12 & F13).
  destruct (begin_x_setter_fields (end_x_setter e w) v Ha3) as (F21 & F22 & F23).
  destruct (x_setters_keep_vertical e v) as [(Kb1 & Kb2 & Kb3) _].
  destruct (x_setters_keep_vertical e w) as [_ (Ka1 & Ka2 & Ka3)].
  destruct (x_setters_keep_vertical (begin_x_setter e v) w) as [_ (K11 & K12 & K13)].
  destruct (x_setters_keep_vertical (end_x_setter e w) v) as [(K21 & K22 & K23) _].
  fold e1 in H11, H12, F11, F12, F13, K11, K12, K13.
  fold e2 in H21, H22, F21, F22, F23, K21, K22, K23.
  rewrite Hb1 in F11, F12, F13. rewrite Ha1 in F21, F22, F23.
  split; [split; congruence|]. split; [split; congruence|].
  split; [lia|]. split; [lia|]. split; [|apply x_setter_y_setter_commute].
  intros Hne. apply cxnSp_eq; try congruence; try lia.
  rewrite F13, F23.
  destruct (Z.ltb_spec w v), (Z.ltb_spec v w); try reflexivity; lia.
Qed.

Lemma endpoint_setters_commute_witness :
  0 <= cx flipped_line /\
  end_x_setter (begin_x_setter flipped_line 3) 1
  = begin_x_setter (end_x_setter flipped_line 1) 3.
Proof.
  assert (Hx : 0 <= cx flipped_line) by (cbn; lia).
  split; [exact Hx|].
  destruct (endpoint_setters_commute flipped_line 3 1 Hx)
    as (_ & _ & _ & _ & Heq & _).
  apply Heq. lia.
Defined.

End Connector.

(** ** Declarative element classes ([pptx/oxml/xmlchemy.py]) *)

Module Xmlchemy.

(** *** Python values, exceptions and the document store *)

(** The exceptions the module and its collaborators raise. *)
Inductive exn : Type :=
  | InvalidXmlError | TypeError | ValueError | KeyError | AttributeError.

Inductive result (A : Type) : Type :=
  | Ok (a : A)
  | Raise (e : exn).
Arguments Ok {A} a.
Arguments Raise {A} e.

(** The in-memory values an attribute property yields or accepts. *)
Inductive pyval : Type :=
  | PyNone
  | PyBool (b : bool)
  | PyInt (z : Z)
  | PyStr (s : string).

#[global] Instance exn_eq_dec : EqDecision exn.
Proof. solve_decision. Defined.
#[global] Instance pyval_eq_dec : EqDecision pyval.
Proof. solve_decision. Defined.
#[global] Instance result_eq_dec `{EqDecision A} : EqDecision (result A).
Proof. solve_decision. Defined.

(** [value is None]. *)
Definition is_None (v : pyval) : bool :=
  match v with PyNone => true | _ => false end.

(** The number a value compares as, when it is one ([bool] is a subclass
    of [int]). *)
Definition as_int (v : pyval) : option Z :=
  match v with
  | PyBool b => Some (if b then 1 else 0)%Z
  | PyInt z => Some z
  | _ => None
  end.

(** [a == b]. *)
Definition py_eq (a b : pyval) : bool :=
  match a, b with
  | PyNone, PyNone => true
  | PyStr s, PyStr t => bool_decide (s = t)
  | _, _ =>
      match as_int a, as_int b with
      | Some m, Some n => bool_decide (m = n)
      | _, _ => false
      end
  end.

(** Elements live in a store and are known by their address, so that two
    reads of the same child can be compared for identity. *)
Definition loc : Type := positive.

(** An lxml element: its Clark-notation tag, its attributes by Clark name,
    and its children in document order. *)
Record element : Type := Element {
  tag : string;
  attrib : gmap string string;
  children : list loc }.

Abbreviation store := (gmap loc element).

Definition with_attrib (f : gmap string string -> gmap string string)
    (e : element) : element :=
  {| tag := tag e; attrib := f (attrib e); children := children e |}.

Definition with_children (f : list loc -> list loc) (e : element) : element :=
  {| tag := tag e; attrib := attrib e; children := f (children e) |}.

Definition tag_of (st : store) (l : loc) : option string := tag <$> st !! l.

Definition attrib_of (st : store) (l : loc) : gmap string string :=
  match st !! l with Some e => attrib e | None => ∅ end.

Definition children_of (st : store) (l : loc) : list loc :=
  match st !! l with Some e => children e | None => [] end.

(** Code that reads and writes the store and may raise.  A raised
    exception keeps the store as it was at that point. *)
Definition M (A : Type) : Type := store -> result A * store.

#[global] Instance M_ret : MRet M := λ A a st, (Ok a, st).
#[global] Instance M_bind : MBind M := λ A B k m st,
  match m st with
  | (Ok a, st') => k a st'
  | (Raise e, st') => (Raise e, st')
  end.

Definition raise {A} (e : exn) : M A := λ st, (Raise e, st).
Definition gets {A} (f : store -> A) : M A := λ st, (Ok (f st), st).
Definition modify (f : store -> store) : M unit := λ st, (Ok (), f st).
Definition lift {A} (r : result A) : M A := λ st, (r, st).

(** *** The lxml operations the module calls

    These belong to the tree library, not to the module.  An element has
    at most one parent: attaching it somewhere takes it away from where it
    was.  Inserting an element under itself or under one of its own
    descendants is outside what is modelled. *)

(** [obj.get(name)]. *)
Definition get (obj : loc) (name : string) : M (option string) :=
  gets (λ st, attrib_of st obj !! name).

(** [obj.set(name, value)]. *)
Definition set (obj : loc) (name value : string) : M unit :=
  modify (alter (with_attrib <[name := value]>) obj).

(** [name in obj.attrib]. *)
Definition attrib_contains (obj : loc) (name : string) : M bool :=
  gets (λ st, bool_decide (is_Some (attrib_of st obj !! name))).

(** [del obj.attrib[name]]. *)
Definition attrib_del (obj : loc) (name : string) : M unit :=
  present ← attrib_contains obj name;
  if present : bool then modify (alter (with_attrib (delete name)) obj)
  else raise KeyError.

(** [obj.findall(clark)]: the direct children bearing that tag. *)
Definition findall (st : store) (obj : loc) (clark : string) : list loc :=
  filter (λ c, tag_of st c = Some clark) (children_of st obj).

(** [obj.find(clark)]: the first of them, or [None]. *)
Definition find (st : store) (obj : loc) (clark : string) : option loc :=
  head (findall st obj clark).

(** [parser.makeelement(clark)]: a new element, attached nowhere. *)
Definition makeelement (clark : string) : M loc :=
  λ st, let l := fresh (dom st) in
        (Ok l, <[l := {| tag := clark; attrib := ∅; children := [] |}]> st).

(** Take [elm] out of whatever child list holds it. *)
Definition detach (elm : loc) (st : store) : store :=
  with_children (filter (λ c, c ≠ elm)) <$> st.

(** [obj.append(elm)]. *)
Definition append (obj elm : loc) : M unit :=
  modify (λ st, alter (with_children (λ cs, cs ++ [elm])) obj (detach elm st)).

(** The child list once [elm] stands right before [sibling]. *)
Definition put_before (sibling elm : loc) (cs : list loc) : list loc :=
  c ← cs; if decide (c = sibling) then [elm; c] else [c].

(** [sibling.addprevious(elm)]; nothing to do when both are the same
    element. *)
Definition addprevious (sibling elm : loc) : M unit :=
  if decide (elm = sibling) then mret ()
  else modify (λ st, with_children (put_before sibling elm) <$> detach elm st).

(** [obj.remove(child)]. *)
Definition remove (obj child : loc) : M unit :=
  cs ← gets (λ st, children_of st obj);
  if decide (child ∈ cs)
  then modify (alter (with_children (filter (λ c, c ≠ child))) obj)
  else raise ValueError.

(** [for x in xs: body(x)]. *)
Fixpoint for_each {A} (xs : list A) (body : A -> M unit) : M unit :=
  match xs with
  | [] => mret ()
  | x :: xs' => body x;; for_each xs' body
  end.

(** *** Simple types and descriptors *)

(** A simple type ([ST_*] class): the two conversions between the XML
    string of an attribute and its in-memory value.  The classes
    themselves are defined outside the module. *)
Record simple_type : Type := SimpleType {
  from_xml : string -> result pyval;
  to_xml : pyval -> result string }.

(** [BaseAttribute]: what [__init__] stores. *)
Record BaseAttribute : Type := Attribute {
  _attr_name : string;
  _simple_type : simple_type }.

(** [OptionalAttribute]: a [BaseAttribute] with a default. *)
Record OptionalAttribute : Type := Optional {
  optional_base :> BaseAttribute;
  _default : pyval }.

(** [RequiredAttribute] adds no state. *)
Definition RequiredAttribute : Type := BaseAttribute.

(** [_BaseChildElement]: what [__init__] stores. *)
Record _BaseChildElement : Type := ChildElement {
  _nsptagname : string;
  _successors : list string }.

(** [':' in name]. *)
Fixpoint has_colon (name : string) : bool :=
  match name with
  | EmptyString => false
  | String a rest => if Ascii.eqb a ":"%char then true else has_colon rest
  end.

(** *** Element classes and the metaclass *)

(** The four kinds of object [MetaOxmlElement] dispatches on. *)
Inductive descriptor : Type :=
  | DOptionalAttribute (a : OptionalAttribute)
  | DRequiredAttribute (a : RequiredAttribute)
  | DZeroOrMore (c : _BaseChildElement)
  | DZeroOrOne (c : _BaseChildElement).

(** What a name of an element class is bound to: a descriptor as the class
    body declared it, one of the properties or methods a descriptor
    installs, or anything else the class body defines. *)
Inductive member : Type :=
  | Declared (d : descriptor)
  | AttrProperty (d : descriptor)
  | ChildProperty (c : _BaseChildElement)
  | ListProperty (c : _BaseChildElement)
  | NewMethod (c : _BaseChildElement)
  | InsertMethod (c : _BaseChildElement)
  | AddMethod (c : _BaseChildElement)
  | GetOrAddMethod (c : _BaseChildElement)
  | RemoveMethod (c : _BaseChildElement)
  | UserDefined.

(** A class: the names its own [__dict__] binds, and the names it sees
    through its base classes. *)
Record pyclass : Type := PyClass {
  own : gmap string member;
  inherited : gset string }.

(** [hasattr(cls, name)]. *)
Definition hasattr (cls : pyclass) (name : string) : bool :=
  bool_decide (is_Some (own cls !! name)) || bool_decide (name ∈ inherited cls).

(** [setattr(cls, name, value)]. *)
Definition setattr (cls : pyclass) (name : string) (value : member) : pyclass :=
  {| own := <[name := value]> (own cls); inherited := inherited cls |}.

(** [delattr(cls, name)]: only a name of the class itself can go. *)
Definition delattr (cls : pyclass) (name : string) : result pyclass :=
  match own cls !! name with
  | Some _ => Ok {| own := delete name (own cls); inherited := inherited cls |}
  | None => Raise AttributeError
  end.

(** [_BaseChildElement._add_to_class]. *)
Definition _add_to_class (cls : pyclass) (name : string) (method : member)
    : pyclass :=
  if hasattr cls name then cls else setattr cls name method.

(** The method names ['_add_%s' % prop_name] and the like. *)
Definition _add_method_name (prop_name : string) : string := "_add_" +:+ prop_name.
Definition _insert_method_name (prop_name : string) : string :=
  "_insert_" +:+ prop_name.
Definition _new_method_name (prop_name : string) : string := "_new_" +:+ prop_name.
Definition _remove_method_name (prop_name : string) : string :=
  "_remove_" +:+ prop_name.
Definition _get_or_add_method_name (prop_name : string) : string :=
  "get_or_add_" +:+ prop_name.
Definition _list_prop_name (prop_name : string) : string := prop_name +:+ "_lst".

(** [_add_list_getter], [_add_creator], [_add_inserter], [_add_adder],
    [_add_getter], [_add_get_or_adder], [_add_remover], [_add_attr_property]. *)
Definition _add_list_getter (c : _BaseChildElement) (prop_name : string)
    (cls : pyclass) : pyclass :=
  setattr cls (_list_prop_name prop_name) (ListProperty c).
Definition _add_creator (c : _BaseChildElement) (prop_name : string)
    (cls : pyclass) : pyclass :=
  _add_to_class cls (_new_method_name prop_name) (NewMethod c).
Definition _add_inserter (c : _BaseChildElement) (prop_name : string)
    (cls : pyclass) : pyclass :=
  _add_to_class cls (_insert_method_name prop_name) (InsertMethod c).
Definition _add_adder (c : _BaseChildElement) (prop_name : string)
    (cls : pyclass) : pyclass :=
  _add_to_class cls (_add_method_name prop_name) (AddMethod c).
Definition _add_getter (c : _BaseChildElement) (prop_name : string)
    (cls : pyclass) : pyclass :=
  setattr cls prop_name (ChildProperty c).
Definition _add_get_or_adder (c : _BaseChildElement) (prop_name : string)
    (cls : pyclass) : pyclass :=
  _add_to_class cls (_get_or_add_method_name prop_name) (GetOrAddMethod c).
Definition _add_remover (c : _BaseChildElement) (prop_name : string)
    (cls : pyclass) : pyclass :=
  _add_to_class cls (_remove_method_name prop_name) (RemoveMethod c).
Definition _add_attr_property (d : descriptor) (prop_name : string)
    (cls : pyclass) : pyclass :=
  setattr cls prop_name (AttrProperty d).

(** [populate_class_members] of each descriptor class. *)
Definition populate_class_members (d : descriptor) (element_cls : pyclass)
    (prop_name : string) : result pyclass :=
  match d with
  | DOptionalAttribute _ | DRequiredAttribute _ =>
      Ok (_add_attr_property d prop_name element_cls)
  | DZeroOrMore c =>
      let cls := _add_list_getter c prop_name element_cls in
      let cls := _add_creator c prop_name cls in
      let cls := _add_inserter c prop_name cls in
      let cls := _add_adder c prop_name cls in
      delattr cls prop_name
  | DZeroOrOne c =>
      let cls := _add_getter c prop_name element_cls in
      let cls := _add_creator c prop_name cls in
      let cls := _add_inserter c prop_name cls in
      let cls := _add_adder c prop_name cls in
      let cls := _add_get_or_adder c prop_name cls in
      Ok (_add_remover c prop_name cls)
  end.

(** The loop of [MetaOxmlElement.__init__] over [clsdict.items()]. *)
Fixpoint dispatch (items : list (string * member)) (cls : pyclass)
    : result pyclass :=
  match items with
  | [] => Ok cls
  | (key, value) :: rest =>
      match value with
      | Declared d =>
          match populate_class_members d cls key with
          | Ok cls' => dispatch rest cls'
          | Raise e => Raise e
          end
      | _ => dispatch rest cls
      end
  end.

(** [MetaOxmlElement.__init__], run on the class that [type] has made of
    [clsdict] and the bases.  A dictionary gives its items in no
    particular order: [items] is that order. *)
Definition MetaOxmlElement_init (bases : gset string)
    (clsdict : gmap string member) (items : list (string * member))
    : result pyclass :=
  dispatch items {| own := clsdict; inherited := bases |}.

(** The names [BaseOxmlElement] itself defines, which every element class
    sees; [etree.ElementBase] adds its own. *)
Definition BaseOxmlElement_names : gset string :=
  {[ "child_tagnames_after"; "first_child_found_in"; "insert_element_before";
     "remove_all"; "remove_if_present"; "xml" ]}.


(** *** Concrete names, types and documents used in the examples *)

(** Modelled from the spec: [pptx.oxml.ns] is not among the files; its
    [qn] pairs a prefixed name with its namespace and yields the Clark
    name, one comparable token.  Only the three prefixes below are listed;
    a name with another prefix or without a colon is not looked up. *)
Definition nsmap : list (string * string) :=
  [("a", "http://schemas.openxmlformats.org/drawingml/2006/main");
   ("p", "http://schemas.openxmlformats.org/presentationml/2006/main");
   ("r", "http://schemas.openxmlformats.org/officeDocument/2006/relationships")].

Fixpoint split_colon (s : string) : option (string * string) :=
  match s with
  | EmptyString => None
  | String a rest =>
      if Ascii.eqb a ":"%char then Some (EmptyString, rest)
      else '(prefix, tagroot) ← split_colon rest; Some (String a prefix, tagroot)
  end.

Definition qn_pml (namespace_prefixed_tag : string) : string :=
  match split_colon namespace_prefixed_tag with
  | Some (prefix, tagroot) =>
      match list_find (λ e, e.1 = prefix) nsmap with
      | Some (_, (_, uri)) => "{" +:+ uri +:+ "}" +:+ tagroot
      | None => namespace_prefixed_tag
      end
  | None => namespace_prefixed_tag
  end.

(** Modelled from the spec: the simple types live in
    [pptx.oxml.simpletypes], not among the files.  A converter's [to_xml]
    validates and then renders the value, failing with a type error or a
    value error; [from_xml] parses the string.  [ST_IntegerType] is the
    test suite's integer type with bounds 1..42, whose [validate] is in the
    test module; [XsdString] is the string type. *)
Definition Z_to_string (z : Z) : string :=
  DecimalString.NilZero.string_of_int (Z.to_int z).

Definition Z_of_string (s : string) : result Z :=
  match DecimalString.NilZero.int_of_string s with
  | Some d => Ok (Z.of_int d)
  | None => Raise ValueError
  end.

(** [ST_IntegerType.validate]. *)
Definition ST_IntegerType_validate (value : pyval) : result unit :=
  match as_int value with
  | None => Raise TypeError
  | Some z => if ((z <? 1) || (z >? 42))%Z then Raise ValueError else Ok ()
  end.

Definition ST_IntegerType : simple_type :=
  {| from_xml := λ str_value,
       match Z_of_string str_value with Ok z => Ok (PyInt z) | Raise e => Raise e end;
     to_xml := λ value,
       match ST_IntegerType_validate value with
       | Ok _ =>
           match value with
           | PyInt z => Ok (Z_to_string z)
           | PyBool b => Ok (if b then "True" else "False")
           | _ => Raise TypeError
           end
       | Raise e => Raise e
       end |}.

Definition XsdString : simple_type :=
  {| from_xml := λ str_value, Ok (PyStr str_value);
     to_xml := λ value,
       match value with PyStr s => Ok s | _ => Raise TypeError end |}.

(** The test suite's [CT_Parent] and its descriptors. *)
Definition zomChild : _BaseChildElement :=
  {| _nsptagname := "p:zomChild"; _successors := [] |}.
Definition zooChild : _BaseChildElement :=
  {| _nsptagname := "p:zooChild"; _successors := [] |}.
Definition optAttr : OptionalAttribute :=
  {| optional_base := {| _attr_name := "optAttr"; _simple_type := ST_IntegerType |};
     _default := PyNone |}.
Definition reqAttr : RequiredAttribute :=
  {| _attr_name := "reqAttr"; _simple_type := ST_IntegerType |}.


(** [<p:parent reqAttr="5" optAttr="42"/>], alone in its document. *)
Definition parent_doc : store :=
  {[ 1%positive :=
       {| tag := qn_pml "p:parent";
          attrib := {[ "reqAttr" := "5"; "optAttr" := "42" ]};
          children := [] |} ]}.

(** [<p:parent><p:zooChild/><p:zomChild/></p:parent>]. *)
Definition family_doc : store :=
  {[ 1%positive :=
       {| tag := qn_pml "p:parent"; attrib := ∅; children := [2; 3]%positive |};
     2%positive := {| tag := qn_pml "p:zooChild"; attrib := ∅; children := [] |};
     3%positive := {| tag := qn_pml "p:zomChild"; attrib := ∅; children := [] |} ]}.

(** A child [tagA] whose content model puts [tagB] and then [tagC] after
    it. *)
Definition tagA : _BaseChildElement :=
  {| _nsptagname := "p:tagA"; _successors := ["p:tagB"; "p:tagC"] |}.

(** [<p:parent><p:tagC/></p:parent>] and a loose [<p:tagA/>] at 3. *)
Definition tagC_doc : store :=
  {[ 1%positive :=
       {| tag := qn_pml "p:parent"; attrib := ∅; children := [2]%positive |};
     2%positive := {| tag := qn_pml "p:tagC"; attrib := ∅; children := [] |};
     3%positive := {| tag := qn_pml "p:tagA"; attrib := ∅; children := [] |} ]}.

(** [<p:parent><p:tagC/><p:tagB/></p:parent>], whose children are not in
    the order of the content model, and a loose [<p:tagA/>] at 4. *)
Definition unordered_doc : store :=
  {[ 1%positive :=
       {| tag := qn_pml "p:parent"; attrib := ∅; children := [2; 3]%positive |};
     2%positive := {| tag := qn_pml "p:tagC"; attrib := ∅; children := [] |};
     3%positive := {| tag := qn_pml "p:tagB"; attrib := ∅; children := [] |};
     4%positive := {| tag := qn_pml "p:tagA"; attrib := ∅; children := [] |} ]}.

(** [<p:parent><p:tagB/><p:tagC/></p:parent>], in order. *)
Definition ordered_doc : store :=
  {[ 1%positive :=
       {| tag := qn_pml "p:parent"; attrib := ∅; children := [2; 3]%positive |};
     2%positive := {| tag := qn_pml "p:tagB"; attrib := ∅; children := [] |};
     3%positive := {| tag := qn_pml "p:tagC"; attrib := ∅; children := [] |} ]}.

(** An optional attribute with a prefixed name, as a hyperlink's
    [rId = OptionalAttribute('r:id', XsdString)], and an element carrying
    it: [<a:hlinkClick r:id="rId3"/>]. *)
Definition rId : OptionalAttribute :=
  {| optional_base := {| _attr_name := "r:id"; _simple_type := XsdString |};
     _default := PyNone |}.

Definition hlink_doc : store :=
  {[ 1%positive :=
       {| tag := qn_pml "a:hlinkClick";
          attrib := {[ qn_pml "r:id" := "rId3" ]};
          children := [] |} ]}.



(** A class body that declares two repeating children, the second under
    the name of the first one's list property. *)
Definition CT_Clash_dict : gmap string member :=
  {[ "foo" := Declared (DZeroOrMore zomChild);
     "foo_lst" := Declared (DZeroOrMore zooChild) ]}.


(** A class body with a ZeroOrOne and its own [_add_zooChild]. *)
Definition CT_Override_dict : gmap string member :=
  {[ "zooChild" := Declared (DZeroOrOne zooChild);
     "_add_zooChild" := UserDefined ]}.

Section Descriptors.

(** [pptx.oxml.ns.qn], which turns a prefixed name such as [p:sp] into its
    Clark name [{uri}sp].  It is defined outside the module with the
    table of namespaces; here it is any function on the names the
    descriptors are declared with.  [NamespacePrefixedTag.clark_name],
    used by [OxmlElement], is the same map. *)
Variable qn : string -> string.

(** [BaseAttribute._clark_name]. *)
Definition _clark_name (a : BaseAttribute) : string :=
  if has_colon (_attr_name a) then qn (_attr_name a) else _attr_name a.

(** [OptionalAttribute._getter]'s [get_attr_value]. *)
Definition optional_get_attr_value (a : OptionalAttribute) (obj : loc) : M pyval :=
  attr_str_value ← get obj (_clark_name a);
  match attr_str_value with
  | None => mret (_default a)
  | Some s => lift (from_xml (_simple_type a) s)
  end.

(** [OptionalAttribute._setter]'s [set_attr_value]. *)
Definition optional_set_attr_value (a : OptionalAttribute) (obj : loc)
    (value : pyval) : M unit :=
  if is_None value || py_eq value (_default a) then
    present ← attrib_contains obj (_attr_name a);
    if present : bool then attrib_del obj (_attr_name a) else mret ()
  else
    str_value ← lift (to_xml (_simple_type a) value);
    set obj (_clark_name a) str_value.

(** [RequiredAttribute._getter]'s [get_attr_value]. *)
Definition required_get_attr_value (a : RequiredAttribute) (obj : loc) : M pyval :=
  attr_str_value ← get obj (_clark_name a);
  match attr_str_value with
  | None => raise InvalidXmlError
  | Some s => lift (from_xml (_simple_type a) s)
  end.

(** [RequiredAttribute._setter]'s [set_attr_value]. *)
Definition required_set_attr_value (a : RequiredAttribute) (obj : loc)
    (value : pyval) : M unit :=
  str_value ← lift (to_xml (_simple_type a) value);
  set obj (_clark_name a) str_value.

(** [BaseOxmlElement.first_child_found_in]. *)
Fixpoint first_child_found_in (st : store) (obj : loc) (tagnames : list string)
    : option loc :=
  match tagnames with
  | [] => None
  | tagname :: rest =>
      match find st obj (qn tagname) with
      | Some child => Some child
      | None => first_child_found_in st obj rest
      end
  end.

(** [BaseOxmlElement.insert_element_before]. *)
Definition insert_element_before (obj elm : loc) (tagnames : list string) : M loc :=
  successor ← gets (λ st, first_child_found_in st obj tagnames);
  match successor with
  | Some successor => addprevious successor elm
  | None => append obj elm
  end;;
  mret elm.

(** [BaseOxmlElement.remove_all]. *)
Definition remove_all (obj : loc) (tagname : string) : M unit :=
  matching ← gets (λ st, findall st obj (qn tagname));
  for_each matching (λ child, remove obj child).


(** [OxmlElement(nsptag_str)], with the default namespace map. *)
Definition OxmlElement (nsptag_str : string) : M loc :=
  makeelement (qn nsptag_str).

(** The functions a child descriptor installs.  They reach each other
    through [getattr] on the element by method name; what follows is what
    those calls resolve to on a class that does not define the names
    itself. *)

(** [_BaseChildElement._creator]'s [new_child_element]. *)
Definition new_child_element (d : _BaseChildElement) (obj : loc) : M loc :=
  OxmlElement (_nsptagname d).

(** [_BaseChildElement._getter]'s [get_child_element]. *)
Definition get_child_element (d : _BaseChildElement) (obj : loc) : M (option loc) :=
  gets (λ st, find st obj (qn (_nsptagname d))).

(** [_BaseChildElement._list_getter]'s [get_child_element_list]. *)
Definition get_child_element_list (d : _BaseChildElement) (obj : loc)
    : M (list loc) :=
  gets (λ st, findall st obj (qn (_nsptagname d))).

(** [_BaseChildElement._add_inserter]'s [_insert_child]. *)
Definition _insert_child (d : _BaseChildElement) (obj child : loc) : M unit :=
  insert_element_before obj child (_successors d);; mret ().

(** [_BaseChildElement._add_adder]'s [_add_child].  Each keyword argument
    is given as the property assignment it performs on the new child. *)
Definition _add_child (d : _BaseChildElement) (obj : loc)
    (attrs : list (loc -> M unit)) : M loc :=
  child ← new_child_element d obj;
  for_each attrs (λ assign, assign child);;
  _insert_child d obj child;;
  mret child.

(** [ZeroOrOne._add_get_or_adder]'s [get_or_add_child]. *)
Definition get_or_add_child (d : _BaseChildElement) (obj : loc) : M loc :=
  child ← get_child_element d obj;
  match child with
  | None => _add_child d obj []
  | Some child => mret child
  end.

(** [ZeroOrOne._add_remover]'s [_remove_child]. *)
Definition _remove_child (d : _BaseChildElement) (obj : loc) : M unit :=
  remove_all obj (_nsptagname d).

(** *** Reading the child list *)

(** The child bears one of the given prefixed tag names. *)
Definition bears_any (st : store) (tagnames : list string) (c : loc) : Prop :=
  Exists (λ t, tag_of st c = Some (qn t)) tagnames.

(** The specification's [firstChildMatching]: the first direct child, in
    document order, whose tag is any of the given names. *)
Definition firstChildMatching (st : store) (obj : loc) (tagnames : list string)
    : option loc :=
  head (filter (bears_any st tagnames) (children_of st obj)).

(** [c] is the first child of [obj] with the tag [clark]. *)
Definition first_with_tag (st : store) (obj : loc) (clark : string) (c : loc)
    : Prop :=
  ∃ before after,
    children_of st obj = before ++ c :: after ∧
    tag_of st c = Some clark ∧
    Forall (λ c', tag_of st c' ≠ Some clark) before.

Lemma head_filter_split {A} (P : A -> Prop) `{!∀ x, Decision (P x)} l x :
  head (filter P l) = Some x ↔
  ∃ before after, l = before ++ x :: after ∧ P x ∧ Forall (λ y, ¬ P y) before.
Proof.
  induction l as [|a l IH].
  - split; [done|]. intros (b & ? & Hl & _). by destruct b.
  - rewrite filter_cons. destruct (decide (P a)) as [Ha|Ha]; cbn.
    + split.
      * intros [= ->]. by exists [], l.
      * intros ([|b before] & after & Hl & Hx & Hb); simplify_eq/=; [done|].
        by apply Forall_cons in Hb as [? _].
    + rewrite IH. split.
      * intros (before & after & -> & Hx & Hb).
        exists (a :: before), after. by repeat constructor.
      * intros ([|b before] & after & Hl & Hx & Hb); simplify_eq/=; [done|].
        apply Forall_cons in Hb as [_ Hb]. eauto.
Qed.

Lemma head_filter_None {A} (P : A -> Prop) `{!∀ x, Decision (P x)} l :
  head (filter P l) = None ↔ Forall (λ y, ¬ P y) l.
Proof.
  rewrite head_None. induction l as [|a l IH]; [done|].
  rewrite filter_cons, Forall_cons. destruct (decide (P a)); [|tauto].
  split; [done|tauto].
Qed.

Lemma find_Some st obj clark c :
  find st obj clark = Some c ↔ first_with_tag st obj clark c.
Proof.
  unfold find, findall, first_with_tag.
  apply (head_filter_split (λ c', tag_of st c' = Some clark)).
Qed.

Lemma find_None st obj clark :
  find st obj clark = None ↔
  Forall (λ c, tag_of st c ≠ Some clark) (children_of st obj).
Proof.
  unfold find, findall.
  apply (head_filter_None (λ c', tag_of st c' = Some clark)).
Qed.

Lemma first_child_found_in_None st obj tagnames :
  first_child_found_in st obj tagnames = None ↔
  Forall (λ c, ¬ bears_any st tagnames c) (children_of st obj).
Proof.
  unfold bears_any. induction tagnames as [|t ts IH]; cbn.
  - split; [|done]. intros _. apply Forall_forall. intros c _ H. inversion H.
  - destruct (find st obj (qn t)) as [c|] eqn:Hf.
    + split; [done|]. intros Hall. apply find_Some in Hf as (b & a & Hc & Ht & _).
      rewrite Hc in Hall. apply Forall_app in Hall as [_ Hall].
      apply Forall_cons in Hall as [Hno _]. destruct Hno. by left.
    + rewrite IH. apply find_None in Hf. rewrite !Forall_forall in *.
      split.
      * intros Hall c Hc Hex. apply Exists_cons in Hex as [Hex|Hex].
        -- by apply (Hf c Hc).
        -- by apply (Hall c Hc).
      * intros Hall c Hc Hex. apply (Hall c Hc). by right.
Qed.

Lemma first_child_found_in_Some st obj tagnames child :
  first_child_found_in st obj tagnames = Some child ↔
  ∃ earlier t later,
    tagnames = earlier ++ t :: later ∧
    Forall (λ t', find st obj (qn t') = None) earlier ∧
    first_with_tag st obj (qn t) child.
Proof.
  induction tagnames as [|t ts IH]; cbn.
  - split; [done|]. intros (e & ? & ? & He & _). by destruct e.
  - destruct (find st obj (qn t)) as [c|] eqn:Hf.
    + split.
      * intros [= ->]. exists [], t, ts. by rewrite <-find_Some.
      * intros ([|t' e] & t0 & l & Hts & He & Hc); simplify_eq/=.
        -- apply find_Some in Hc. congruence.
        -- apply Forall_cons in He as [He _]. congruence.
    + rewrite IH. split.
      * intros (e & t0 & l & -> & He & Hc). exists (t :: e), t0, l.
        split; [done|]. split; [by constructor|done].
      * intros ([|t' e] & t0 & l & Hts & He & Hc); simplify_eq/=.
        -- apply find_Some in Hc. congruence.
        -- apply Forall_cons in He as [_ He]. by exists e, t0, l.
Qed.

(** C2 (amended). [first_child_found_in] goes through the tag names in the
    order given and answers with the first child, in document order,
    bearing the earliest listed name that any child bears; it answers
    [None] exactly when no child bears any of the names, which is also
    when [firstChildMatching] finds nothing. *)
Theorem first_child_found_in_by_tagname_order st obj tagnames :
  match first_child_found_in st obj tagnames with
  | Some child =>
      ∃ earlier t later,
        tagnames = earlier ++ t :: later ∧
        Forall (λ t', Forall (λ c, tag_of st c ≠ Some (qn t'))
                        (children_of st obj)) earlier ∧
        first_with_tag st obj (qn t) child
  | None =>
      Forall (λ c, ¬ bears_any st tagnames c) (children_of st obj) ∧
      firstChildMatching st obj tagnames = None
  end.
Proof.
  destruct (first_child_found_in st obj tagnames) as [child|] eqn:Hf.
  - apply first_child_found_in_Some in Hf as (e & t & l & -> & He & Hc).
    exists e, t, l. split; [done|]. split; [|done].
    eapply Forall_impl; [exact He|]. intros t' Ht'. by apply find_None.
  - apply first_child_found_in_None in Hf. split; [done|].
    unfold firstChildMatching.
    by apply (head_filter_None (bears_any st tagnames)).
Qed.

(** *** Children kept in the order of the tag names *)

(** The place of a Clark name in the list of tag names: the index of the
    first name that maps to it. *)
Definition rank (tagnames : list string) (clark : string) : option nat :=
  fst <$> list_find (λ t, qn t = clark) tagnames.

(** The ranks of the children that bear one of the names, in document
    order. *)
Definition child_ranks (st : store) (obj : loc) (tagnames : list string)
    : list nat :=
  omap (λ c, tag_of st c ≫= rank tagnames) (children_of st obj).

(** No child bearing a later name stands before a child bearing an earlier
    one. *)
Definition in_tagname_order (st : store) (obj : loc) (tagnames : list string)
    : Prop :=
  StronglySorted le (child_ranks st obj tagnames).

Lemma rank_first_used st obj earlier t later c :
  Forall (λ t', find st obj (qn t') = None) earlier ->
  c ∈ children_of st obj ->
  tag_of st c = Some (qn t) ->
  rank (earlier ++ t :: later) (qn t) = Some (length earlier).
Proof.
  intros He Hc Ht. unfold rank.
  assert (list_find (λ t0, qn t0 = qn t) (earlier ++ t :: later)
          = Some (length earlier, t)) as ->; [|done].
  apply list_find_Some. split; [by rewrite list_lookup_middle|].
  split; [done|]. intros j y Hj Hlt Hy.
  rewrite lookup_app_l in Hj by done.
  apply list_elem_of_lookup_2 in Hj.
  rewrite Forall_forall in He. specialize (He y Hj).
  apply find_None in He. rewrite Forall_forall in He.
  apply (He c Hc). congruence.
Qed.

Lemma rank_not_earlier st obj earlier rest c clark r :
  Forall (λ t', find st obj (qn t') = None) earlier ->
  c ∈ children_of st obj ->
  tag_of st c = Some clark ->
  rank (earlier ++ rest) clark = Some r ->
  length earlier <= r.
Proof.
  intros He Hc Ht. unfold rank.
  destruct (list_find _ _) as [[i s]|] eqn:Hfind; [|done].
  intros [= <-]. cbn.
  apply list_find_Some in Hfind as (Hi & Hs & _).
  destruct (decide (i < length earlier)) as [Hlt|]; [|lia].
  rewrite lookup_app_l in Hi by done.
  apply list_elem_of_lookup_2 in Hi.
  rewrite Forall_forall in He. specialize (He s Hi).
  apply find_None in He. rewrite Forall_forall in He.
  destruct (He c Hc). congruence.
Qed.

(** When the children are in the order of the tag names, the child
    [first_child_found_in] answers with has no child bearing any of the
    names before it. *)
Lemma first_child_found_in_in_order st obj tagnames child :
  in_tagname_order st obj tagnames ->
  first_child_found_in st obj tagnames = Some child ->
  ∃ before after,
    children_of st obj = before ++ child :: after ∧
    bears_any st tagnames child ∧
    Forall (λ c, ¬ bears_any st tagnames c) before.
Proof.
  intros Hord Hf.
  apply first_child_found_in_Some in Hf
    as (earlier & t & later & -> & He & (before & after & Hch & Htag & Hb)).
  exists before, after. split; [done|]. split.
  { apply Exists_app. right. by left. }
  assert (Hchild : child ∈ children_of st obj).
  { rewrite Hch. apply elem_of_app. right. by left. }
  pose proof (rank_first_used _ _ _ _ later _ He Hchild Htag) as Hrank.
  apply Forall_forall. intros c' Hc' Hbears.
  assert (Hc'in : c' ∈ children_of st obj).
  { rewrite Hch. apply elem_of_app. by left. }
  apply Exists_exists in Hbears as (s & Hs & Htag').
  destruct (list_find (λ t0, qn t0 = qn s) (earlier ++ t :: later))
    as [[r' s']|] eqn:Hfind.
  2:{ apply list_find_None in Hfind. rewrite Forall_forall in Hfind.
      by apply (Hfind s Hs). }
  assert (Hr' : rank (earlier ++ t :: later) (qn s) = Some r').
  { unfold rank. by rewrite Hfind. }
  pose proof (rank_not_earlier _ _ _ _ _ _ _ He Hc'in Htag' Hr') as Hge.
  assert (Hle : r' <= length earlier).
  { unfold in_tagname_order, child_ranks in Hord.
    rewrite Hch, omap_app in Hord. cbn in Hord.
    rewrite Htag in Hord. cbn in Hord. rewrite Hrank in Hord.
    eapply (StronglySorted_app_1_elem_of _ _ _ r' (length earlier)) in Hord;
      [done| |by left].
    apply list_elem_of_omap. exists c'. split; [done|].
    rewrite Htag'. cbn. done. }
  assert (r' = length earlier) as -> by lia.
  apply list_find_Some in Hfind as (Hi & Hs' & _).
  rewrite list_lookup_middle in Hi by done. simplify_eq.
  rewrite Forall_forall in Hb. apply (Hb c' Hc'). congruence.
Qed.

(** Then [first_child_found_in] is the specification's
    [firstChildMatching]. *)
Lemma first_child_found_in_in_order_firstChildMatching st obj tagnames :
  in_tagname_order st obj tagnames ->
  first_child_found_in st obj tagnames = firstChildMatching st obj tagnames.
Proof.
  intros Hord.
  destruct (first_child_found_in st obj tagnames) as [child|] eqn:Hf.
  - symmetry. apply (head_filter_split (bears_any st tagnames)).
    by apply first_child_found_in_in_order.
  - symmetry. apply (head_filter_None (bears_any st tagnames)).
    by apply first_child_found_in_None.
Qed.

(** *** What the tree operations do to a child list *)

Lemma children_of_fmap f (st : store) l :
  f [] = [] ->
  children_of (with_children f <$> st) l = f (children_of st l).
Proof.
  intros Hf. unfold children_of. rewrite lookup_fmap.
  by destruct (st !! l).
Qed.

Lemma tag_of_fmap f (st : store) l :
  tag_of (with_children f <$> st) l = tag_of st l.
Proof. unfold tag_of. rewrite lookup_fmap. by destruct (st !! l). Qed.

Lemma children_of_alter f (st : store) obj :
  f [] = [] ->
  children_of (alter (with_children f) obj st) obj = f (children_of st obj).
Proof.
  intros Hf. unfold children_of. rewrite lookup_alter_eq.
  by destruct (st !! obj).
Qed.

Lemma children_of_alter_Some f (st : store) obj :
  is_Some (st !! obj) ->
  children_of (alter (with_children f) obj st) obj = f (children_of st obj).
Proof.
  intros [e He]. unfold children_of. by rewrite lookup_alter_eq, He.
Qed.

Lemma children_of_alter_ne f (st : store) obj l :
  l ≠ obj -> children_of (alter f obj st) l = children_of st l.
Proof. intros Hne. unfold children_of. by rewrite lookup_alter_ne. Qed.

Lemma tag_of_alter f (st : store) obj l :
  tag_of (alter (with_children f) obj st) l = tag_of st l.
Proof.
  unfold tag_of. destruct (decide (l = obj)) as [->|Hne].
  - rewrite lookup_alter_eq. by destruct (st !! obj).
  - by rewrite lookup_alter_ne.
Qed.

Lemma children_of_detach elm st l :
  children_of (detach elm st) l = filter (λ c, c ≠ elm) (children_of st l).
Proof. by apply children_of_fmap. Qed.

Lemma tag_of_detach elm st l : tag_of (detach elm st) l = tag_of st l.
Proof. apply tag_of_fmap. Qed.

Lemma put_before_app sibling elm l1 l2 :
  put_before sibling elm (l1 ++ l2) =
  put_before sibling elm l1 ++ put_before sibling elm l2.
Proof. unfold put_before. apply bind_app. Qed.

Lemma put_before_absent sibling elm l :
  sibling ∉ l -> put_before sibling elm l = l.
Proof.
  unfold put_before. induction l as [|c l IH]; [done|].
  intros Hnot. apply not_elem_of_cons in Hnot as [Hne Hnot]. cbn.
  destruct (decide (c = sibling)); [done|]. cbn. by rewrite IH.
Qed.

Lemma put_before_here sibling elm l :
  put_before sibling elm (sibling :: l) =
  elm :: sibling :: put_before sibling elm l.
Proof. unfold put_before. cbn. by rewrite decide_True. Qed.

(** The store [insert_element_before] leaves behind. *)
Definition inserted (obj elm : loc) (tagnames : list string) (st : store) : store :=
  match first_child_found_in st obj tagnames with
  | Some successor =>
      if decide (elm = successor) then st
      else with_children (put_before successor elm) <$> detach elm st
  | None => alter (with_children (λ cs, cs ++ [elm])) obj (detach elm st)
  end.

Lemma insert_element_before_run obj elm tagnames st :
  insert_element_before obj elm tagnames st =
  (Ok elm, inserted obj elm tagnames st).
Proof.
  unfold insert_element_before, inserted, mbind, M_bind, gets; cbn.
  destruct (first_child_found_in st obj tagnames) as [s|]; cbn.
  - unfold addprevious. by destruct (decide (elm = s)).
  - done.
Qed.

Lemma tag_of_inserted obj elm tagnames st l :
  tag_of (inserted obj elm tagnames st) l = tag_of st l.
Proof.
  unfold inserted. destruct (first_child_found_in _ _ _) as [s|].
  - destruct (decide (elm = s)); [done|].
    by rewrite tag_of_fmap, tag_of_detach.
  - by rewrite tag_of_alter, tag_of_detach.
Qed.

(** Without a child bearing one of the names, the element goes last. *)
Lemma inserted_appends obj elm tagnames st :
  is_Some (st !! obj) ->
  first_child_found_in st obj tagnames = None ->
  children_of (inserted obj elm tagnames st) obj =
  filter (λ c, c ≠ elm) (children_of st obj) ++ [elm].
Proof.
  intros Hobj Hnone. unfold inserted. rewrite Hnone.
  rewrite children_of_alter_Some, children_of_detach; [done|].
  unfold detach. rewrite lookup_fmap. by apply fmap_is_Some.
Qed.

(** With one, it goes right before the child found. *)
Lemma inserted_before obj elm tagnames st successor before after :
  first_child_found_in st obj tagnames = Some successor ->
  elm ≠ successor ->
  children_of st obj = before ++ successor :: after ->
  successor ∉ before ->
  children_of (inserted obj elm tagnames st) obj =
  filter (λ c, c ≠ elm) before ++ elm :: successor ::
    put_before successor elm (filter (λ c, c ≠ elm) after).
Proof.
  intros Hsome Hne Hch Hnot. unfold inserted. rewrite Hsome.
  rewrite decide_False by done.
  rewrite children_of_fmap by done. rewrite children_of_detach, Hch.
  rewrite filter_app, filter_cons_True by done.
  rewrite put_before_app, put_before_here, put_before_absent; [done|].
  intros Hin. apply list_elem_of_filter in Hin as [_ Hin]. done.
Qed.

(** No child bearing one of the names stands before [elm]. *)
Definition successors_follow (st : store) (obj elm : loc) (tagnames : list string)
    : Prop :=
  ∃ before after,
    children_of st obj = before ++ elm :: after ∧
    Forall (λ c, ¬ bears_any st tagnames c) before.

Lemma bears_any_inserted obj elm tagnames st tagnames' c :
  bears_any (inserted obj elm tagnames st) tagnames' c ↔ bears_any st tagnames' c.
Proof. unfold bears_any. by setoid_rewrite tag_of_inserted. Qed.

Lemma inserted_successors_follow obj elm tagnames st :
  is_Some (st !! obj) ->
  in_tagname_order st obj tagnames ->
  successors_follow (inserted obj elm tagnames st) obj elm tagnames.
Proof.
  intros Hobj Hord. unfold successors_follow.
  destruct (first_child_found_in st obj tagnames) as [s|] eqn:Hf.
  - destruct (first_child_found_in_in_order _ _ _ _ Hord Hf)
      as (before & after & Hch & Hs & Hb).
    destruct (decide (elm = s)) as [->|Hne].
    + exists before, after. unfold inserted at 1. rewrite Hf, decide_True by done.
      split; [done|]. eapply Forall_impl; [exact Hb|].
      intros c Hc. by rewrite bears_any_inserted.
    + eexists _, _. split.
      * eapply inserted_before; [done..|].
        intros Hin. rewrite Forall_forall in Hb. by apply (Hb s Hin).
      * apply Forall_forall. intros c Hc.
        apply list_elem_of_filter in Hc as [_ Hc].
        rewrite bears_any_inserted. rewrite Forall_forall in Hb. by apply Hb.
  - eexists _, []. split; [by apply inserted_appends|].
    apply first_child_found_in_None in Hf.
    apply Forall_forall. intros c Hc.
    apply list_elem_of_filter in Hc as [_ Hc].
    rewrite bears_any_inserted. rewrite Forall_forall in Hf. by apply Hf.
Qed.

(** With successors [(tagB, tagC)] and a single child bearing [tagC],
    the element goes before that child. *)
Lemma inserted_single_successor obj elm tagB tagC c st :
  children_of st obj = [c] ->
  tag_of st c = Some (qn tagC) ->
  elm ≠ c ->
  children_of (inserted obj elm [tagB; tagC] st) obj = [elm; c].
Proof.
  intros Hch Htag Hne.
  assert (Hfind : ∀ t, qn t = qn tagC -> find st obj (qn t) = Some c).
  { intros t Ht. apply find_Some. exists [], []. by rewrite Ht. }
  assert (Hf : first_child_found_in st obj [tagB; tagC] = Some c).
  { cbn. destruct (find st obj (qn tagB)) as [c'|] eqn:HB.
    - apply find_Some in HB as (b & a & Hc' & _). rewrite Hch in Hc'.
      destruct b as [|? [|]]; by simplify_eq/=.
    - by rewrite Hfind. }
  rewrite (inserted_before _ _ _ _ c [] [] Hf); [done..|].
  apply not_elem_of_nil.
Qed.

(** The ranks of the children depend on the child list and on the tags of
    the children only. *)
Lemma child_ranks_ext st st' obj tagnames :
  children_of st' obj = children_of st obj ->
  (∀ c, c ∈ children_of st obj -> tag_of st' c = tag_of st c) ->
  child_ranks st' obj tagnames = child_ranks st obj tagnames.
Proof.
  intros Hch Htag. unfold child_ranks. rewrite Hch. clear Hch.
  induction (children_of st obj) as [|c cs IH]; [done|]. cbn.
  rewrite (Htag c) by by left.
  rewrite IH; [done|]. intros c' Hc'. apply Htag. by right.
Qed.

(** *** Removing children *)

Lemma filter_ext_elem_of {A} (P Q : A -> Prop)
    `{!∀ x, Decision (P x)} `{!∀ x, Decision (Q x)} (l : list A) :
  (∀ x, x ∈ l -> P x ↔ Q x) -> filter P l = filter Q l.
Proof.
  induction l as [|a l IH]; [done|]. intros Hl.
  rewrite !filter_cons, IH.
  - destruct (decide (P a)) as [Hp|Hp], (decide (Q a)) as [Hq|Hq]; try done.
    + destruct Hq. apply Hl; [by left|done].
    + destruct Hp. apply Hl; [by left|done].
  - intros x Hx. apply Hl. by right.
Qed.

Lemma filter_keeps_all {A} (P : A -> Prop) `{!∀ x, Decision (P x)} (l : list A) :
  (∀ x, x ∈ l -> P x) -> filter P l = l.
Proof.
  induction l as [|a l IH]; [done|]. intros Hl.
  rewrite filter_cons_True by (apply Hl; by left).
  f_equal. apply IH. intros x Hx. apply Hl. by right.
Qed.

Lemma remove_run obj child st :
  child ∈ children_of st obj ->
  remove obj child st =
  (Ok (), alter (with_children (filter (λ c, c ≠ child))) obj st).
Proof.
  intros Hin. unfold remove, mbind, M_bind, gets; cbn.
  by rewrite decide_True.
Qed.

(** What a store keeps when only the child list of [obj] changes. *)
Definition same_but_children (obj : loc) (st st' : store) : Prop :=
  (∀ l, l ≠ obj -> st' !! l = st !! l) ∧
  (∀ l, tag_of st' l = tag_of st l) ∧
  (∀ l, attrib_of st' l = attrib_of st l).


Lemma same_but_children_trans obj st1 st2 st3 :
  same_but_children obj st1 st2 -> same_but_children obj st2 st3 ->
  same_but_children obj st1 st3.
Proof.
  intros (H1 & H2 & H3) (H1' & H2' & H3'). split; [|split]; intros l.
  - intros Hl. by rewrite H1', H1.
  - by rewrite H2', H2.
  - by rewrite H3', H3.
Qed.

Lemma same_but_children_alter f obj st :
  same_but_children obj st (alter (with_children f) obj st).
Proof.
  split; [|split]; intros l.
  - intros Hl. by rewrite lookup_alter_ne.
  - apply tag_of_alter.
  - unfold attrib_of. destruct (decide (l = obj)) as [->|Hne].
    + rewrite lookup_alter_eq. by destruct (st !! obj).
    + by rewrite lookup_alter_ne.
Qed.

Lemma for_each_remove obj ms : ∀ st,
  NoDup ms ->
  ms ⊆ children_of st obj ->
  ∃ st', for_each ms (λ child, remove obj child) st = (Ok (), st') ∧
    children_of st' obj = filter (λ c, c ∉ ms) (children_of st obj) ∧
    same_but_children obj st st' ∧
    (ms = [] -> st' = st).
Proof.
  induction ms as [|m ms IH]; intros st Hnd Hsub.
  - exists st. split; [done|]. split; [|done].
    symmetry. apply filter_keeps_all. intros x _. apply not_elem_of_nil.
  - apply NoDup_cons in Hnd as [Hm Hnd].
    assert (Hmin : m ∈ children_of st obj) by (apply Hsub; by left).
    set (st1 := alter (with_children (filter (λ c, c ≠ m))) obj st).
    assert (Hch1 : children_of st1 obj = filter (λ c, c ≠ m) (children_of st obj)).
    { by apply children_of_alter. }
    destruct (IH st1 Hnd) as (st' & Hrun & Hch & Hsame & _).
    { intros x Hx. rewrite Hch1. apply list_elem_of_filter. split.
      - intros ->. done.
      - apply Hsub. by right. }
    exists st'. split; [|split; [|split]].
    + cbn. unfold mbind, M_bind. rewrite remove_run by done. exact Hrun.
    + rewrite Hch, Hch1, list_filter_filter.
      apply filter_ext_elem_of. intros x _. rewrite not_elem_of_cons. tauto.
    + eapply same_but_children_trans; [|exact Hsame].
      apply same_but_children_alter.
    + done.
Qed.

Lemma remove_all_run obj tagname st :
  NoDup (children_of st obj) ->
  ∃ st', remove_all obj tagname st = (Ok (), st') ∧
    children_of st' obj =
      filter (λ c, tag_of st c ≠ Some (qn tagname)) (children_of st obj) ∧
    same_but_children obj st st' ∧
    (find st obj (qn tagname) = None -> st' = st).
Proof.
  intros Hnd.
  destruct (for_each_remove obj (findall st obj (qn tagname)) st)
    as (st' & Hrun & Hch & Hsame & Hnil).
  { by apply NoDup_filter. }
  { intros x Hx. by apply list_elem_of_filter in Hx as [_ Hx]. }
  exists st'. split; [|split; [|split]].
  - unfold remove_all, mbind, M_bind, gets; cbn. exact Hrun.
  - rewrite Hch. apply filter_ext_elem_of. intros x Hx.
    unfold findall. rewrite list_elem_of_filter. tauto.
  - done.
  - intros Hnone. apply Hnil. by apply head_None.
Qed.

(** C8. On a parent whose child list names no child twice, [_remove_child]
    returns normally, leaves exactly the children that did not bear the
    descriptor's tag, in their order, and touches nothing else; the getter
    then answers [None]; and when no child bore the tag to begin with the
    store is left as it was. *)
Theorem remove_child_removes_all d obj st :
  NoDup (children_of st obj) ->
  ∃ st', _remove_child d obj st = (Ok (), st') ∧
    children_of st' obj =
      filter (λ c, tag_of st c ≠ Some (qn (_nsptagname d))) (children_of st obj) ∧
    same_but_children obj st st' ∧
    get_child_element d obj st' = (Ok None, st') ∧
    (get_child_element d obj st = (Ok None, st) -> st' = st).
Proof.
  intros Hnd.
  destruct (remove_all_run obj (_nsptagname d) st Hnd)
    as (st' & Hrun & Hch & Hsame & Hnone).
  exists st'. split; [done|]. split; [done|]. split; [done|]. split.
  - unfold get_child_element, gets. f_equal. f_equal.
    apply find_None. rewrite Hch. apply Forall_forall. intros c Hc.
    apply list_elem_of_filter in Hc as [Hc _].
    destruct Hsame as (_ & Htag & _). by rewrite Htag.
  - unfold get_child_element, gets. intros [= Hfind]. by apply Hnone.
Qed.

(** *** Adding a child *)

(** What lxml guarantees about a parent: it is in the document, no child
    is listed twice, and every child is an element of the document. *)
Definition well_formed_parent (st : store) (obj : loc) : Prop :=
  is_Some (st !! obj) ∧
  NoDup (children_of st obj) ∧
  Forall (λ c, is_Some (st !! c)) (children_of st obj).

Lemma filter_drops_all {A} (P : A -> Prop) `{!∀ x, Decision (P x)} (l : list A) :
  (∀ x, x ∈ l -> ¬ P x) -> filter P l = [].
Proof.
  induction l as [|a l IH]; [done|]. intros Hl.
  rewrite filter_cons_False by (apply Hl; by left).
  apply IH. intros x Hx. apply Hl. by right.
Qed.

(** The element [makeelement] hands out. *)
Definition loose (clark : string) : element :=
  {| tag := clark; attrib := ∅; children := [] |}.

Lemma _add_child_run d obj st :
  _add_child d obj [] st =
  (Ok (fresh (dom st)),
   inserted obj (fresh (dom st)) (_successors d)
     (<[fresh (dom st) := loose (qn (_nsptagname d))]> st)).
Proof.
  unfold _add_child, new_child_element, OxmlElement, makeelement,
    _insert_child, mbind, M_bind; cbn.
  by rewrite insert_element_before_run.
Qed.

Lemma inserted_lookup_loose obj elm tagnames st clark :
  elm ≠ obj ->
  st !! elm = Some (loose clark) ->
  inserted obj elm tagnames st !! elm = Some (loose clark).
Proof.
  intros Hne Helm. unfold inserted.
  destruct (first_child_found_in st obj tagnames) as [s|].
  - destruct (decide (elm = s)); [done|].
    unfold detach. by rewrite !lookup_fmap, Helm.
  - rewrite lookup_alter_ne by done. unfold detach. by rewrite lookup_fmap, Helm.
Qed.

Lemma dom_inserted obj elm tagnames st :
  dom (inserted obj elm tagnames st) = dom st.
Proof.
  unfold inserted, detach.
  destruct (first_child_found_in st obj tagnames) as [s|].
  - destruct (decide (elm = s)); [done|]. by rewrite !dom_fmap_L.
  - by rewrite dom_alter_L, dom_fmap_L.
Qed.

(** Where a new element lands among the children that were there. *)
Lemma inserted_new_child obj elm tagnames st :
  is_Some (st !! obj) ->
  NoDup (children_of st obj) ->
  elm ∉ children_of st obj ->
  ∃ before after,
    children_of st obj = before ++ after ∧
    children_of (inserted obj elm tagnames st) obj = before ++ elm :: after.
Proof.
  intros Hobj Hnd Hnew.
  assert (Hkeep : ∀ l, l ⊆ children_of st obj -> filter (λ c, c ≠ elm) l = l).
  { intros l Hl. apply filter_keeps_all. intros x Hx ->. by apply Hnew, Hl. }
  destruct (first_child_found_in st obj tagnames) as [s|] eqn:Hf.
  - pose proof Hf as Hf'.
    apply first_child_found_in_Some in Hf'
      as (_ & t & _ & _ & _ & (before & after & Hch & _ & _)).
    rewrite Hch in Hnd. apply NoDup_app in Hnd as (_ & Hb & Ha).
    apply NoDup_cons in Ha as [Ha _].
    assert (Hs : s ∉ before). { intros Hin. apply (Hb s Hin). by left. }
    assert (Hne : elm ≠ s).
    { intros ->. apply Hnew. rewrite Hch. apply elem_of_app. right. by left. }
    exists before, (s :: after). split; [done|].
    rewrite (inserted_before _ _ _ _ _ _ _ Hf Hne Hch Hs).
    rewrite !Hkeep, put_before_absent; [done..| |].
    + intros x Hx. rewrite Hch. apply elem_of_app. right. by right.
    + intros x Hx. rewrite Hch. apply elem_of_app. by left.
  - exists (children_of st obj), []. split; [by rewrite app_nil_r|].
    rewrite inserted_appends by done. by rewrite Hkeep.
Qed.

Lemma get_or_add_child_present d obj st c :
  find st obj (qn (_nsptagname d)) = Some c ->
  get_or_add_child d obj st = (Ok c, st).
Proof.
  intros Hf. unfold get_or_add_child, get_child_element, mbind, M_bind, gets.
  by rewrite Hf.
Qed.

Lemma get_or_add_child_absent d obj st :
  well_formed_parent st obj ->
  find st obj (qn (_nsptagname d)) = None ->
  ∃ child st',
    get_or_add_child d obj st = (Ok child, st') ∧
    st !! child = None ∧
    st' !! child = Some (loose (qn (_nsptagname d))) ∧
    dom st' = {[child]} ∪ dom st ∧
    findall st' obj (qn (_nsptagname d)) = [child] ∧
    ∃ before after,
      children_of st obj = before ++ after ∧
      children_of st' obj = before ++ child :: after.
Proof.
  intros (Hobj & Hnd & Hcl) Hnone.
  set (l := fresh (dom st)).
  set (st1 := <[l := loose (qn (_nsptagname d))]> st).
  assert (Hl : st !! l = None).
  { apply not_elem_of_dom. apply is_fresh. }
  assert (Hlobj : l ≠ obj). { intros ->. rewrite Hl in Hobj. by destruct Hobj. }
  assert (Hch1 : children_of st1 obj = children_of st obj).
  { unfold children_of, st1. by rewrite lookup_insert_ne. }
  assert (Hnew : l ∉ children_of st obj).
  { intros Hin. rewrite Forall_forall in Hcl. specialize (Hcl l Hin).
    rewrite Hl in Hcl. by destruct Hcl. }
  assert (Hold : ∀ c, c ∈ children_of st obj ->
            tag_of st1 c ≠ Some (qn (_nsptagname d))).
  { intros c Hc. unfold tag_of, st1. rewrite lookup_insert_ne.
    - apply find_None in Hnone. rewrite Forall_forall in Hnone. by apply Hnone.
    - intros <-. done. }
  destruct (inserted_new_child obj l (_successors d) st1)
    as (before & after & Hsplit & Hch2).
  { unfold st1. rewrite lookup_insert_ne by done. done. }
  { by rewrite Hch1. }
  { by rewrite Hch1. }
  exists l, (inserted obj l (_successors d) st1).
  split; [|split; [done|split; [|split; [|split]]]].
  - unfold get_or_add_child, get_child_element, mbind, M_bind, gets.
    rewrite Hnone. apply _add_child_run.
  - apply inserted_lookup_loose; [done|]. unfold st1. by rewrite lookup_insert_eq.
  - rewrite dom_inserted. unfold st1. by rewrite dom_insert_L.
  - unfold findall. rewrite Hch2.
    rewrite (list_filter_iff _ (λ c, tag_of st1 c = Some (qn (_nsptagname d)))).
    2:{ intros c. by rewrite tag_of_inserted. }
    rewrite Hch1 in Hsplit.
    rewrite filter_app, filter_cons_True.
    2:{ unfold tag_of, st1. by rewrite lookup_insert_eq. }
    rewrite !filter_drops_all; [done| |].
    + intros x Hx. apply Hold. rewrite Hsplit. apply elem_of_app. by right.
    + intros x Hx. apply Hold. rewrite Hsplit. apply elem_of_app. by left.
  - exists before, after. by rewrite <-Hch1.
Qed.

(** C7. On a well-formed parent [get_or_add_child] returns a child [child]
    and a store [st']; called again on [st'] it returns the same [child]
    and leaves [st'] as it is.  If the parent had the child, [child] is
    that one and nothing changed.  If it had none, [child] is a new, empty
    element with the descriptor's tag, it is the only element added to the
    document and the only child of the parent bearing the tag, and the
    other children keep their order around it. *)
Theorem get_or_add_child_idempotent d obj st :
  well_formed_parent st obj ->
  ∃ child st',
    get_or_add_child d obj st = (Ok child, st') ∧
    get_or_add_child d obj st' = (Ok child, st') ∧
    get_child_element d obj st' = (Ok (Some child), st') ∧
    (∀ c, get_child_element d obj st = (Ok (Some c), st) ->
          child = c ∧ st' = st) ∧
    (get_child_element d obj st = (Ok None, st) ->
       st !! child = None ∧
       st' !! child = Some (loose (qn (_nsptagname d))) ∧
       dom st' = {[child]} ∪ dom st ∧
       findall st' obj (qn (_nsptagname d)) = [child] ∧
       ∃ before after,
         children_of st obj = before ++ after ∧
         children_of st' obj = before ++ child :: after).
Proof.
  intros Hwf. unfold get_child_element, gets.
  destruct (find st obj (qn (_nsptagname d))) as [c|] eqn:Hf.
  - exists c, st. rewrite (get_or_add_child_present _ _ _ _ Hf), Hf.
    split; [done|]. split; [done|]. split; [done|]. split; [|done].
    by intros c' [= ->].
  - destruct (get_or_add_child_absent d obj st Hwf Hf)
      as (child & st' & Hrun & Hnew & Hloose & Hdom & Hall & Hsplit).
    assert (Hf' : find st' obj (qn (_nsptagname d)) = Some child).
    { unfold find. by rewrite Hall. }
    exists child, st'. rewrite Hrun, Hf'.
    rewrite (get_or_add_child_present _ _ _ _ Hf').
    split; [done|]. split; [done|]. split; [done|]. split; [done|].
    intros _. done.
Qed.

(** *** Attribute properties *)

Lemma attrib_of_set obj name value st :
  is_Some (st !! obj) ->
  attrib_of (alter (with_attrib <[name := value]>) obj st) obj
  = <[name := value]> (attrib_of st obj).
Proof.
  intros [e He]. unfold attrib_of. by rewrite lookup_alter_eq, He.
Qed.

Lemma attrib_of_del obj name st :
  attrib_of (alter (with_attrib (delete name)) obj st) obj
  = delete name (attrib_of st obj).
Proof.
  unfold attrib_of. rewrite lookup_alter_eq.
  destruct (st !! obj); [done|]. by rewrite delete_empty.
Qed.

Lemma required_get_attr_value_run (a : RequiredAttribute) obj st :
  required_get_attr_value a obj st =
  (match attrib_of st obj !! _clark_name a with
   | None => Raise InvalidXmlError
   | Some s => from_xml (_simple_type a) s
   end, st).
Proof.
  unfold required_get_attr_value, get, mbind, M_bind, gets.
  destruct (attrib_of st obj !! _clark_name a) as [s|]; [|done].
  unfold lift. by destruct (from_xml _ s).
Qed.

(** C3. The property of a required attribute raises [InvalidXmlError]
    when the element has no such attribute, the document staying as it
    is; when the attribute is there with the string [s], the property
    gives what the simple type's [from_xml] makes of [s]. *)
Theorem required_get_attr_value_spec (a : RequiredAttribute) obj st :
  (attrib_of st obj !! _clark_name a = None ->
   required_get_attr_value a obj st = (Raise InvalidXmlError, st)) ∧
  (∀ s, attrib_of st obj !! _clark_name a = Some s ->
   required_get_attr_value a obj st = (from_xml (_simple_type a) s, st)).
Proof.
  rewrite required_get_attr_value_run. split.
  - by intros ->.
  - by intros s ->.
Qed.

(** C4. When the simple type's [to_xml] rejects the value, the setter of a
    required attribute raises that same exception and the document,
    hence the attribute's previous value, is as it was before. *)
Theorem required_set_attr_value_invalid (a : RequiredAttribute) obj value e st :
  to_xml (_simple_type a) value = Raise e ->
  required_set_attr_value a obj value st = (Raise e, st) ∧
  required_get_attr_value a obj (required_set_attr_value a obj value st).2
  = required_get_attr_value a obj st.
Proof.
  intros Hbad.
  assert (required_set_attr_value a obj value st = (Raise e, st)) as ->; [|done].
  unfold required_set_attr_value, mbind, M_bind, lift. by rewrite Hbad.
Qed.

(** A valid assignment to a required attribute is read back converted. *)
Lemma required_set_then_get (a : RequiredAttribute) obj value s st :
  is_Some (st !! obj) ->
  to_xml (_simple_type a) value = Ok s ->
  ∃ st', required_set_attr_value a obj value st = (Ok (), st') ∧
    required_get_attr_value a obj st' = (from_xml (_simple_type a) s, st').
Proof.
  intros Hobj Hs. eexists. split.
  - unfold required_set_attr_value, mbind, M_bind, lift. rewrite Hs. reflexivity.
  - rewrite required_get_attr_value_run.
    rewrite attrib_of_set by done. by rewrite lookup_insert_eq.
Qed.

(** Assigning the default to an optional attribute whose name has no
    prefix removes the attribute if it is there and changes nothing
    otherwise; the property then gives the default. *)
Lemma optional_set_default_unqualified (a : OptionalAttribute) obj value st :
  has_colon (_attr_name a) = false ->
  is_None value || py_eq value (_default a) = true ->
  ∃ st', optional_set_attr_value a obj value st = (Ok (), st') ∧
    attrib_of st' obj = delete (_clark_name a) (attrib_of st obj) ∧
    optional_get_attr_value a obj st' = (Ok (_default a), st') ∧
    (attrib_of st obj !! _clark_name a = None -> st' = st).
Proof.
  intros Hcolon Hdef.
  assert (Hname : _clark_name a = _attr_name a).
  { unfold _clark_name. by rewrite Hcolon. }
  unfold optional_set_attr_value. rewrite Hdef.
  unfold attrib_contains, attrib_del, attrib_contains,
    optional_get_attr_value, get, mbind, M_bind, gets, modify.
  rewrite Hname.
  destruct (attrib_of st obj !! _attr_name a) as [s|] eqn:Hs.
  - rewrite bool_decide_true by done. cbv beta.
    rewrite bool_decide_true by (by rewrite Hs).
    eexists. split; [done|]. rewrite attrib_of_del, lookup_delete_eq.
    done.
  - rewrite bool_decide_false by (by intros [? ?]).
    exists st. rewrite Hs. split; [done|]. split; [|done].
    by rewrite delete_id.
Qed.

(** The same assignment when the name has a prefix: the setter looks for
    the prefixed name among the attributes, which are kept under their
    Clark names, finds nothing and leaves the attribute in place. *)
Lemma optional_set_default_qualified (a : OptionalAttribute) obj value st :
  attrib_of st obj !! _attr_name a = None ->
  is_None value || py_eq value (_default a) = true ->
  optional_set_attr_value a obj value st = (Ok (), st).
Proof.
  intros Hname Hdef. unfold optional_set_attr_value. rewrite Hdef.
  unfold attrib_contains, mbind, M_bind, gets; cbn.
  rewrite Hname. by rewrite bool_decide_false by (by intros [? ?]).
Qed.

(** What the integer types write for a number, they read back as that
    number. *)
Lemma Z_of_string_to_string z : Z_of_string (Z_to_string z) = Ok z.
Proof.
  unfold Z_of_string, Z_to_string.
  rewrite NilZero.isi.
  - by rewrite DecimalZ.of_to.
  - destruct z as [|p|p]; cbn; try discriminate.
    intros [= H]. by apply DecimalPos.Unsigned.to_uint_nonnil in H.
  - destruct z as [|p|p]; cbn; try discriminate.
    intros [= H]. by apply DecimalPos.Unsigned.to_uint_nonnil in H.
Qed.

(** C6 (amended). The property of an optional attribute gives the default
    itself when the element has no such attribute.  Assigning a value [v]
    that is not [None], differs from the default and is rendered by
    [to_xml] as [s] stores [s]; the property then gives what [from_xml]
    makes of [s], and so gives [v] back exactly when the simple type reads
    [s] as [v].  The bounded integer type does so for every integer
    within its bounds, and the string type for every string. *)
Theorem optional_attribute_round_trip (a : OptionalAttribute) obj st :
  (attrib_of st obj !! _clark_name a = None ->
   optional_get_attr_value a obj st = (Ok (_default a), st)) ∧
  (∀ v s,
     is_Some (st !! obj) ->
     is_None v = false ->
     py_eq v (_default a) = false ->
     to_xml (_simple_type a) v = Ok s ->
     ∃ st', optional_set_attr_value a obj v st = (Ok (), st') ∧
       attrib_of st' obj = <[_clark_name a := s]> (attrib_of st obj) ∧
       optional_get_attr_value a obj st' = (from_xml (_simple_type a) s, st') ∧
       (optional_get_attr_value a obj st' = (Ok v, st') ↔
        from_xml (_simple_type a) s = Ok v)) ∧
  (∀ z,
     _simple_type a = ST_IntegerType ->
     is_Some (st !! obj) ->
     (1 <= z <= 42)%Z ->
     py_eq (PyInt z) (_default a) = false ->
     ∃ st', optional_set_attr_value a obj (PyInt z) st = (Ok (), st') ∧
       optional_get_attr_value a obj st' = (Ok (PyInt z), st')) ∧
  (∀ str,
     _simple_type a = XsdString ->
     is_Some (st !! obj) ->
     py_eq (PyStr str) (_default a) = false ->
     ∃ st', optional_set_attr_value a obj (PyStr str) st = (Ok (), st') ∧
       optional_get_attr_value a obj st' = (Ok (PyStr str), st')).
Proof.
  assert (Hgen : ∀ v s,
     is_Some (st !! obj) ->
     is_None v = false ->
     py_eq v (_default a) = false ->
     to_xml (_simple_type a) v = Ok s ->
     ∃ st', optional_set_attr_value a obj v st = (Ok (), st') ∧
       attrib_of st' obj = <[_clark_name a := s]> (attrib_of st obj) ∧
       optional_get_attr_value a obj st' = (from_xml (_simple_type a) s, st')).
  { intros v s Hobj Hnone Hdef Hs. eexists. split.
    - unfold optional_set_attr_value, mbind, M_bind, lift.
      rewrite Hnone, Hdef, Hs. reflexivity.
    - split; [by apply attrib_of_set|].
      unfold optional_get_attr_value, get, mbind, M_bind, gets.
      rewrite attrib_of_set by done. rewrite lookup_insert_eq.
      unfold lift. by destruct (from_xml _ s). }
  split; [|split; [|split]].
  - unfold optional_get_attr_value, get, mbind, M_bind, gets. by intros ->.
  - intros v s Hobj Hnone Hdef Hs.
    destruct (Hgen v s Hobj Hnone Hdef Hs) as (st' & Hset & Hattr & Hget).
    exists st'. split; [done|]. split; [done|]. split; [done|].
    rewrite Hget. split; [by intros [= ->]|by intros ->].
  - intros z Htype Hobj Hz Hdef.
    destruct (Hgen (PyInt z) (Z_to_string z) Hobj eq_refl Hdef)
      as (st' & Hset & _ & Hget).
    { rewrite Htype. cbn.
      destruct (Z.ltb_spec z 1); [lia|]. destruct (Z.gtb_spec z 42); [lia|].
      done. }
    exists st'. split; [done|]. rewrite Hget, Htype. cbn.
    by rewrite Z_of_string_to_string.
  - intros str Htype Hobj Hdef.
    destruct (Hgen (PyStr str) str Hobj eq_refl Hdef)
      as (st' & Hset & _ & Hget).
    { by rewrite Htype. }
    exists st'. split; [done|]. by rewrite Hget, Htype.
Qed.

(** *** Further properties of the attribute properties *)

Lemma py_eq_refl v : py_eq v v = true.
Proof. destruct v as [|b|z|s]; cbn; by rewrite ?bool_decide_true. Qed.

Lemma alter_same_elsewhere (f : element -> element) obj (st : store) :
  ∀ l, l ≠ obj -> alter f obj st !! l = st !! l.
Proof. intros l Hl. by rewrite lookup_alter_ne. Qed.

(** A valid assignment to a required attribute writes that one attribute
    of that one element: the string [to_xml] gives is stored under the
    Clark name, the other attributes, the tag and the children of the
    element and all other elements stay, and the property then gives what
    [from_xml] makes of the string. *)
Theorem required_set_attr_value_writes_one (a : RequiredAttribute) obj value s st :
  is_Some (st !! obj) ->
  to_xml (_simple_type a) value = Ok s ->
  ∃ st', required_set_attr_value a obj value st = (Ok (), st') ∧
    attrib_of st' obj = <[_clark_name a := s]> (attrib_of st obj) ∧
    tag_of st' obj = tag_of st obj ∧
    children_of st' obj = children_of st obj ∧
    (∀ l, l ≠ obj -> st' !! l = st !! l) ∧
    required_get_attr_value a obj st' = (from_xml (_simple_type a) s, st').
Proof.
  intros Hobj Hs.
  exists (alter (with_attrib <[_clark_name a := s]>) obj st).
  split; [|split; [|split; [|split; [|split]]]].
  - unfold required_set_attr_value, mbind, M_bind, lift. by rewrite Hs.
  - by apply attrib_of_set.
  - unfold tag_of. rewrite lookup_alter_eq. by destruct (st !! obj).
  - unfold children_of. rewrite lookup_alter_eq. by destruct (st !! obj).
  - apply alter_same_elsewhere.
  - rewrite required_get_attr_value_run.
    rewrite attrib_of_set by done. by rewrite lookup_insert_eq.
Qed.

(** Assigning [None] to an optional attribute does what assigning its
    default does, whatever the default is. *)
Theorem optional_set_None_as_default (a : OptionalAttribute) obj st :
  optional_set_attr_value a obj PyNone st
  = optional_set_attr_value a obj (_default a) st.
Proof.
  unfold optional_set_attr_value. cbn [is_None orb].
  by rewrite py_eq_refl, orb_true_r.
Qed.

(** A value that is neither [None] nor the default and that [to_xml]
    rejects makes the setter of an optional attribute raise that exception
    with the document as it was. *)
Theorem optional_set_attr_value_invalid (a : OptionalAttribute) obj value e st :
  is_None value = false ->
  py_eq value (_default a) = false ->
  to_xml (_simple_type a) value = Raise e ->
  optional_set_attr_value a obj value st = (Raise e, st).
Proof.
  intros Hnone Hdef Hbad.
  unfold optional_set_attr_value, mbind, M_bind, lift.
  by rewrite Hnone, Hdef, Hbad.
Qed.

(** *** Further properties of the tree primitives *)

Lemma filter_ne_split (c : loc) before after :
  NoDup (before ++ c :: after) ->
  filter (λ c', c' ≠ c) (before ++ c :: after) = before ++ after.
Proof.
  intros Hnd. apply NoDup_app in Hnd as (_ & Hb & Ha).
  apply NoDup_cons in Ha as [Ha _].
  rewrite filter_app, filter_cons_False by (intros H; by apply H).
  rewrite !filter_keeps_all; [done|..].
  - intros x Hx ->. done.
  - intros x Hx ->. apply (Hb c Hx). by left.
Qed.



(** [insert_element_before] moves rather than copies: the element ends up
    among the children exactly once, the other children are all still
    there in the order they had, tags are untouched, and the call returns
    the element itself. *)
Theorem insert_element_before_moves obj elm tagnames st :
  is_Some (st !! obj) ->
  NoDup (children_of st obj) ->
  ∃ st', insert_element_before obj elm tagnames st = (Ok elm, st') ∧
    children_of st' obj ≡ₚ elm :: filter (λ c, c ≠ elm) (children_of st obj) ∧
    NoDup (children_of st' obj) ∧
    filter (λ c, c ≠ elm) (children_of st' obj)
      = filter (λ c, c ≠ elm) (children_of st obj) ∧
    (∀ l, tag_of st' l = tag_of st l).
Proof.
  intros Hobj Hnd. exists (inserted obj elm tagnames st).
  split; [apply insert_element_before_run|].
  assert (Hnd' : NoDup (elm :: filter (λ c, c ≠ elm) (children_of st obj))).
  { apply NoDup_cons. split; [|by apply NoDup_filter].
    intros Hin. apply list_elem_of_filter in Hin as [Hne _]. done. }
  assert (Hperm : children_of (inserted obj elm tagnames st) obj
            ≡ₚ elm :: filter (λ c, c ≠ elm) (children_of st obj) ∧
          filter (λ c, c ≠ elm) (children_of (inserted obj elm tagnames st) obj)
            = filter (λ c, c ≠ elm) (children_of st obj)).
  { destruct (first_child_found_in st obj tagnames) as [s|] eqn:Hf.
    - pose proof Hf as Hf'.
      apply first_child_found_in_Some in Hf'
        as (_ & t & _ & _ & _ & (before & after & Hch & Htag & Hb)).
      assert (Hs : s ∉ before).
      { intros Hin. rewrite Forall_forall in Hb. by apply (Hb s Hin). }
      destruct (decide (elm = s)) as [->|Hne].
      + unfold inserted. rewrite Hf, decide_True by done. split; [|done].
        rewrite Hch in Hnd |- *. rewrite filter_ne_split by done.
        by rewrite Permutation_middle.
      + rewrite (inserted_before _ _ _ _ _ _ _ Hf Hne Hch Hs).
        assert (Hsa : s ∉ filter (λ c, c ≠ elm) after).
        { intros Hin. apply list_elem_of_filter in Hin as [_ Hin].
          rewrite Hch in Hnd. apply NoDup_app in Hnd as (_ & _ & Ha).
          by apply NoDup_cons in Ha as [Ha _]. }
        rewrite (put_before_absent _ _ _ Hsa), Hch.
        rewrite !filter_app, !filter_cons_True by done.
        split; [by rewrite <-Permutation_middle|].
        rewrite filter_cons_False by (intros H; by apply H).
        rewrite filter_cons_True by done.
        by rewrite !list_filter_filter_l by done.
    - rewrite inserted_appends by done. split.
      + by rewrite <-Permutation_cons_append.
      + rewrite filter_app, list_filter_filter_l by done.
        rewrite filter_cons_False by (intros H; by apply H).
        by rewrite app_nil_r. }
  destruct Hperm as [Hperm Hfilter].
  split; [done|]. split; [by rewrite Hperm|]. split; [done|].
  intros l. apply tag_of_inserted.
Qed.

(** [_add_child] without attributes, on a well-formed parent: it returns a
    new, empty element with the descriptor's tag, the only element added
    to the document; the parent gets it as one more child among the others,
    which keep their order; the list property counts one more; the parent
    is still well formed; and without successors the child goes last. *)
Theorem add_child_adds_one d obj st :
  well_formed_parent st obj ->
  ∃ child st',
    _add_child d obj [] st = (Ok child, st') ∧
    st !! child = None ∧
    st' !! child = Some (loose (qn (_nsptagname d))) ∧
    dom st' = {[child]} ∪ dom st ∧
    (∃ before after,
       children_of st obj = before ++ after ∧
       children_of st' obj = before ++ child :: after) ∧
    length (findall st' obj (qn (_nsptagname d)))
      = S (length (findall st obj (qn (_nsptagname d)))) ∧
    well_formed_parent st' obj ∧
    (_successors d = [] -> children_of st' obj = children_of st obj ++ [child]).
Proof.
  intros (Hobj & Hnd & Hcl).
  set (l := fresh (dom st)).
  set (st1 := <[l := loose (qn (_nsptagname d))]> st).
  set (st' := inserted obj l (_successors d) st1).
  assert (Hl : st !! l = None).
  { apply not_elem_of_dom. apply is_fresh. }
  assert (Hlobj : l ≠ obj). { intros ->. rewrite Hl in Hobj. by destruct Hobj. }
  assert (Hobj1 : is_Some (st1 !! obj)).
  { unfold st1. by rewrite lookup_insert_ne. }
  assert (Hch1 : children_of st1 obj = children_of st obj).
  { unfold children_of, st1. by rewrite lookup_insert_ne. }
  assert (Hnew : l ∉ children_of st obj).
  { intros Hin. rewrite Forall_forall in Hcl. specialize (Hcl l Hin).
    rewrite Hl in Hcl. by destruct Hcl. }
  assert (Hdom : dom st' = {[l]} ∪ dom st).
  { unfold st'. rewrite dom_inserted. unfold st1. by rewrite dom_insert_L. }
  assert (Htag : ∀ c, c ∈ children_of st obj -> tag_of st' c = tag_of st c).
  { intros c Hc. unfold st'. rewrite tag_of_inserted. unfold tag_of, st1.
    rewrite lookup_insert_ne; [done|]. by intros <-. }
  assert (Htagl : tag_of st' l = Some (qn (_nsptagname d))).
  { unfold st'. rewrite tag_of_inserted. unfold tag_of, st1.
    by rewrite lookup_insert_eq. }
  destruct (inserted_new_child obj l (_successors d) st1)
    as (before & after & Hsplit & Hch2); [done|by rewrite Hch1..|].
  rewrite Hch1 in Hsplit. fold st' in Hch2.
  exists l, st'. split; [apply _add_child_run|]. split; [done|].
  split; [|split; [done|split; [by exists before, after|split; [|split]]]].
  - apply inserted_lookup_loose; [done|]. unfold st1. by rewrite lookup_insert_eq.
  - unfold findall. rewrite Hch2, Hsplit.
    rewrite !filter_app, filter_cons_True by done.
    rewrite !length_app. cbn [length].
    rewrite (filter_ext_elem_of (λ c, tag_of st' c = Some (qn (_nsptagname d)))
               (λ c, tag_of st c = Some (qn (_nsptagname d))) before).
    2:{ intros c Hc. rewrite Htag; [done|].
        rewrite Hsplit. apply elem_of_app. by left. }
    rewrite (filter_ext_elem_of (λ c, tag_of st' c = Some (qn (_nsptagname d)))
               (λ c, tag_of st c = Some (qn (_nsptagname d))) after).
    2:{ intros c Hc. rewrite Htag; [done|].
        rewrite Hsplit. apply elem_of_app. by right. }
    lia.
  - split; [|split].
    + apply elem_of_dom. rewrite Hdom. apply elem_of_union. right.
      by apply elem_of_dom.
    + rewrite Hch2, <-Permutation_middle. apply NoDup_cons.
      rewrite <-Hsplit. done.
    + rewrite Hch2. apply Forall_forall. intros c Hc.
      apply elem_of_dom. rewrite Hdom. apply elem_of_union.
      apply elem_of_app in Hc as [Hc|Hc].
      * right. apply elem_of_dom. rewrite Forall_forall in Hcl. apply Hcl.
        rewrite Hsplit. apply elem_of_app. by left.
      * apply elem_of_cons in Hc as [->|Hc]; [left; by apply elem_of_singleton|].
        right. apply elem_of_dom. rewrite Forall_forall in Hcl. apply Hcl.
        rewrite Hsplit. apply elem_of_app. by right.
  - intros Hnil. unfold st'. rewrite Hnil.
    rewrite inserted_appends by done. rewrite Hch1.
    rewrite filter_keeps_all; [done|]. intros x Hx ->. done.
Qed.

(** *** Adding a child with keyword arguments *)

(** A keyword argument of [_add_child]: the property of the new child it
    names, required or optional, and the value given. *)
Inductive assignment : Type :=
  | SetRequired (a : RequiredAttribute) (value : pyval)
  | SetOptional (a : OptionalAttribute) (value : pyval).

(** [setattr(child, key, value)] for such a keyword. *)
Definition assign (k : assignment) (child : loc) : M unit :=
  match k with
  | SetRequired a value => required_set_attr_value a child value
  | SetOptional a value => optional_set_attr_value a child value
  end.

Definition is_Ok {A} (r : result A) : Prop := ∃ a, r = Ok a.

#[global] Instance is_Ok_dec {A} (r : result A) : Decision (is_Ok r).
Proof.
  destruct r as [a|e]; [left; by exists a|right; by intros [? ?]].
Defined.

(** The keyword is one its property takes without raising. *)
Definition accepted (k : assignment) : Prop :=
  match k with
  | SetRequired a value => is_Ok (to_xml (_simple_type a) value)
  | SetOptional a value =>
      is_None value || py_eq value (_default a) = true ∨
      is_Ok (to_xml (_simple_type a) value)
  end.

#[global] Instance accepted_dec k : Decision (accepted k).
Proof. destruct k; cbn; apply _. Defined.

(** What a store keeps when only attributes change. *)
Definition same_but_attrib (st st' : store) : Prop :=
  dom st' = dom st ∧
  ∀ o, children_of st' o = children_of st o ∧ tag_of st' o = tag_of st o.

Lemma same_but_attrib_refl st : same_but_attrib st st.
Proof. done. Qed.

Lemma same_but_attrib_trans st1 st2 st3 :
  same_but_attrib st1 st2 -> same_but_attrib st2 st3 -> same_but_attrib st1 st3.
Proof.
  intros [Hd1 H1] [Hd2 H2]. split; [congruence|]. intros o.
  destruct (H1 o), (H2 o). split; congruence.
Qed.

Lemma same_but_attrib_alter f l (st : store) :
  same_but_attrib st (alter (with_attrib f) l st).
Proof.
  split; [apply dom_alter_L|]. intros o. unfold children_of, tag_of.
  destruct (decide (o = l)) as [->|Hne].
  - rewrite lookup_alter_eq. by destruct (st !! l).
  - by rewrite lookup_alter_ne.
Qed.

(** An assignment changes attributes only; it raises exactly when it is
    not accepted, and then changes nothing. *)
Lemma assign_run k child st :
  same_but_attrib st (assign k child st).2 ∧
  (accepted k -> (assign k child st).1 = Ok ()) ∧
  (¬ accepted k -> ∃ e, assign k child st = (Raise e, st)).
Proof.
  destruct k as [a v|a v]; cbn.
  - unfold required_set_attr_value, mbind, M_bind, lift, set, modify.
    destruct (to_xml _ v) as [s|e] eqn:Hs; cbn.
    + split; [apply same_but_attrib_alter|]. split; [done|].
      intros Hno. destruct Hno. by exists s.
    + split; [done|]. split; [by intros [? ?]|by exists e].
  - unfold optional_set_attr_value, attrib_del, attrib_contains, set, modify,
      lift, gets, mbind, M_bind.
    destruct (is_None v || py_eq v (_default a)) eqn:Hdef.
    + destruct (bool_decide _) eqn:Hb; cbn; rewrite ?Hb; cbn.
      * split; [apply same_but_attrib_alter|]. split; [done|].
        intros Hno. destruct Hno. by left.
      * split; [done|]. split; [done|]. intros Hno. destruct Hno. by left.
    + destruct (to_xml _ v) as [s|e] eqn:Hs; cbn.
      * split; [apply same_but_attrib_alter|]. split; [done|].
        intros Hno. destruct Hno. right. by exists s.
      * split; [done|]. split; [|by exists e].
        intros [?|[? ?]]; done.
Qed.

Lemma for_each_cons {A} (x : A) xs body st :
  for_each (x :: xs) body st =
  match body x st with
  | (Ok _, st') => for_each xs body st'
  | (Raise e, st') => (Raise e, st')
  end.
Proof. reflexivity. Qed.

Lemma for_each_assign ks child : ∀ st,
  same_but_attrib st (for_each (assign <$> ks) (λ k, k child) st).2 ∧
  (Forall accepted ks ->
   (for_each (assign <$> ks) (λ k, k child) st).1 = Ok ()) ∧
  (¬ Forall accepted ks ->
   ∃ e, (for_each (assign <$> ks) (λ k, k child) st).1 = Raise e).
Proof.
  induction ks as [|k ks IH]; intros st.
  - split; [done|]. split; [done|]. intros Hno. destruct Hno. constructor.
  - rewrite fmap_cons, for_each_cons.
    destruct (assign_run k child st) as (Hsame & Hok & Hbad).
    destruct (assign k child st) as [[[]|e] st1] eqn:Hk; cbn in Hsame, Hok.
    + destruct (IH st1) as (Hsame' & Hok' & Hbad').
      split; [by eapply same_but_attrib_trans|]. split.
      * intros Hall. apply Forall_cons in Hall as [_ Hall]. by apply Hok'.
      * intros Hno. apply Hbad'. intros Hall. apply Hno. constructor; [|done].
        destruct (decide (accepted k)) as [Hk'|Hk']; [done|].
        destruct (Hbad Hk') as [e He]. congruence.
    + cbn. split; [done|]. split; [|by eexists].
      intros Hall. apply Forall_cons in Hall as [Hk' _].
      specialize (Hok Hk'). done.
Qed.


Lemma _add_child_unfold d obj attrs st :
  _add_child d obj attrs st =
  match for_each attrs (λ assign, assign (fresh (dom st)))
          (<[fresh (dom st) := loose (qn (_nsptagname d))]> st) with
  | (Ok _, st2) =>
      (Ok (fresh (dom st)), inserted obj (fresh (dom st)) (_successors d) st2)
  | (Raise e, st2) => (Raise e, st2)
  end.
Proof.
  unfold _add_child, new_child_element, OxmlElement, makeelement,
    _insert_child, mbind, M_bind; cbn.
  destruct (for_each attrs _ _) as [[[]|e] st2]; [|done].
  by rewrite insert_element_before_run.
Qed.

(** *** Where the inserted child stands *)

(** C1 (amended). Provided the children of the parent already stand in the
    order of the descriptor's successor names, after [_insert_child] no
    child bearing a successor name stands before the inserted element.
    Whatever the order of the children: with no successors the element is
    appended last, and with successors [(tagB, tagC)] a parent holding a
    single [tagC] child ends as [[elm; tagC]].  The same holds of the
    element [_add_child] makes and returns, for keyword arguments its
    properties accept and a parent whose children are elements of the
    document. *)
Theorem insert_child_successors_follow d obj elm st :
  is_Some (st !! obj) ->
  (∃ st', _insert_child d obj elm st = (Ok (), st') ∧
    (in_tagname_order st obj (_successors d) ->
       successors_follow st' obj elm (_successors d)) ∧
    (_successors d = [] ->
       children_of st' obj = filter (λ c, c ≠ elm) (children_of st obj) ++ [elm]) ∧
    (∀ tagB tagC c,
       _successors d = [tagB; tagC] ->
       children_of st obj = [c] -> tag_of st c = Some (qn tagC) -> elm ≠ c ->
       children_of st' obj = [elm; c])) ∧
  (∀ ks,
     Forall (λ c, is_Some (st !! c)) (children_of st obj) ->
     Forall accepted ks ->
     ∃ child st', _add_child d obj (assign <$> ks) st = (Ok child, st') ∧
       st !! child = None ∧
       tag_of st' child = Some (qn (_nsptagname d)) ∧
       (in_tagname_order st obj (_successors d) ->
          successors_follow st' obj child (_successors d)) ∧
       (_successors d = [] ->
          children_of st' obj = children_of st obj ++ [child]) ∧
       (∀ tagB tagC c,
          _successors d = [tagB; tagC] ->
          children_of st obj = [c] -> tag_of st c = Some (qn tagC) ->
          children_of st' obj = [child; c])).
Proof.
  intros Hobj. split.
  { exists (inserted obj elm (_successors d) st).
    split; [|split; [|split]].
    - unfold _insert_child, mbind, M_bind.
      by rewrite insert_element_before_run.
    - by apply inserted_successors_follow.
    - intros Hnil. apply inserted_appends; [done|]. by rewrite Hnil.
    - intros tagB tagC c Hsucc Hch Htag Hne. rewrite Hsucc.
      by apply inserted_single_successor. }
  intros ks Hin Hall.
  set (l := fresh (dom st)).
  set (st1 := <[l := loose (qn (_nsptagname d))]> st).
  assert (Hl : st !! l = None).
  { apply not_elem_of_dom. apply is_fresh. }
  assert (Hnew : ∀ c, c ∈ children_of st obj -> c ≠ l).
  { intros c Hc ->. rewrite Forall_forall in Hin.
    destruct (Hin l Hc) as [e He]. congruence. }
  pose proof (for_each_assign ks l st1) as Hfe.
  rewrite _add_child_unfold. fold l. fold st1.
  destruct (for_each (assign <$> ks) (λ k, k l) st1) as [r st2].
  cbn in Hfe. destruct Hfe as ([Hdom Hsame] & Hok & _).
  rewrite (Hok Hall).
  assert (Hch2 : children_of st2 obj = children_of st obj).
  { destruct (Hsame obj) as [-> _]. unfold children_of, st1.
    destruct (decide (obj = l)) as [->|Hne].
    - destruct Hobj as [e He]. congruence.
    - by rewrite lookup_insert_ne. }
  assert (Htag2 : ∀ c, c ≠ l -> tag_of st2 c = tag_of st c).
  { intros c Hc. destruct (Hsame c) as [_ ->]. unfold tag_of, st1.
    by rewrite lookup_insert_ne. }
  assert (Hobj2 : is_Some (st2 !! obj)).
  { apply elem_of_dom. rewrite Hdom. unfold st1. rewrite dom_insert_L.
    apply elem_of_union. right. by apply elem_of_dom. }
  exists l, (inserted obj l (_successors d) st2).
  split; [done|]. split; [done|]. split; [|split; [|split]].
  - rewrite tag_of_inserted. destruct (Hsame l) as [_ ->].
    unfold tag_of, st1. by rewrite lookup_insert_eq.
  - intros Hord. apply inserted_successors_follow; [done|].
    unfold in_tagname_order.
    rewrite (child_ranks_ext st st2); [done..|].
    intros c Hc. apply Htag2. by apply Hnew.
  - intros Hnil. rewrite inserted_appends; [|done|by rewrite Hnil].
    rewrite Hch2. by rewrite filter_keeps_all.
  - intros tagB tagC c Hsucc Hch Htag. rewrite Hsucc.
    assert (Hc : c ≠ l).
    { apply Hnew. rewrite Hch. by left. }
    apply inserted_single_successor; [by rewrite Hch2| |done].
    by rewrite Htag2.
Qed.


End Descriptors.

(** *** The names of a class after the metaclass has run *)

Lemma length_append (s1 s2 : string) :
  String.length (s1 +:+ s2) = String.length s1 + String.length s2.
Proof.
  induction s1 as [|a s1 IH]; [done|].
  change (S (String.length (s1 +:+ s2)) = S (String.length s1 + String.length s2)).
  by rewrite IH.
Qed.


Lemma setattr_lookup_ne cls n m name :
  name ≠ n -> own (setattr cls n m) !! name = own cls !! name.
Proof. intros Hne. cbn. by rewrite lookup_insert_ne. Qed.

Lemma _add_to_class_lookup_ne cls n m name :
  name ≠ n -> own (_add_to_class cls n m) !! name = own cls !! name.
Proof.
  intros Hne. unfold _add_to_class. destruct (hasattr cls n); [done|].
  by apply setattr_lookup_ne.
Qed.





Lemma hasattr_own cls name :
  is_Some (own cls !! name) -> hasattr cls name = true.
Proof. intros H. unfold hasattr. by rewrite bool_decide_true. Qed.



Lemma delattr_Ok cls name cls' :
  delattr cls name = Ok cls' ->
  own cls' = delete name (own cls) ∧ inherited cls' = inherited cls.
Proof. unfold delattr. destruct (own cls !! name); [|done]. by intros [= <-]. Qed.


Ltac unfold_installers :=
  unfold _add_attr_property, _add_list_getter, _add_creator, _add_inserter,
    _add_adder, _add_getter, _add_get_or_adder, _add_remover in *.







Lemma dispatch_Declared key d rest cls :
  dispatch ((key, Declared d) :: rest) cls =
  match populate_class_members d cls key with
  | Ok cls' => dispatch rest cls'
  | Raise e => Raise e
  end.
Proof. done. Qed.





(** *** Further properties of class instrumentation *)



Lemma _add_to_class_lookup cls n m :
  own (_add_to_class cls n m) !! n
  = if hasattr cls n then own cls !! n else Some m.
Proof.
  unfold _add_to_class. destruct (hasattr cls n); [done|].
  cbn. by rewrite lookup_insert_eq.
Qed.


Lemma _add_to_class_keeps_member cls n' m n v :
  own cls !! n = Some v -> own (_add_to_class cls n' m) !! n = Some v.
Proof.
  intros Hn. destruct (decide (n = n')) as [<-|Hne].
  - rewrite _add_to_class_lookup, hasattr_own; [done|]. by rewrite Hn.
  - by rewrite _add_to_class_lookup_ne.
Qed.

(** The method names of one property name differ from each other and
    from the property name. *)
Ltac names_ne :=
  let H := fresh in
  intros H;
  unfold _new_method_name, _insert_method_name, _add_method_name,
    _get_or_add_method_name, _remove_method_name, _list_prop_name in H;
  first
    [ cbv [String.append] in H; discriminate H
    | apply (f_equal String.length) in H; rewrite ?length_append in H;
      cbn in H; lia ].



Lemma populate_class_members_keeps_member d cls key cls' n v :
  populate_class_members d cls key = Ok cls' ->
  own cls !! n = Some v ->
  key ≠ n ->
  (∀ c, d = DZeroOrMore c -> _list_prop_name key ≠ n) ->
  own cls' !! n = Some v.
Proof.
  intros Hrun Hn Hkey Hlst. destruct d as [a|a|c|c]; cbn in Hrun;
    unfold_installers.
  - injection Hrun as <-. by rewrite setattr_lookup_ne.
  - injection Hrun as <-. by rewrite setattr_lookup_ne.
  - apply delattr_Ok in Hrun as [-> _]. rewrite lookup_delete_ne by done.
    repeat apply _add_to_class_keeps_member.
    rewrite setattr_lookup_ne; [done|]. intros ->. by apply (Hlst c).
  - injection Hrun as <-. repeat apply _add_to_class_keeps_member.
    by rewrite setattr_lookup_ne.
Qed.

Lemma dispatch_keeps_member n v items : ∀ cls cls',
  dispatch items cls = Ok cls' ->
  own cls !! n = Some v ->
  (∀ key d, (key, Declared d) ∈ items ->
     key ≠ n ∧ ∀ c, d = DZeroOrMore c -> _list_prop_name key ≠ n) ->
  own cls' !! n = Some v.
Proof.
  induction items as [|[key value] rest IH]; intros cls cls' Hrun Hn Hfree.
  - by injection Hrun as <-.
  - assert (Hrest : ∀ k d, (k, Declared d) ∈ rest ->
              k ≠ n ∧ ∀ c, d = DZeroOrMore c -> _list_prop_name k ≠ n).
    { intros k d Hk. apply Hfree. by right. }
    cbn in Hrun. destruct value as [d| | | | | | | | |]; try by eapply IH.
    destruct (populate_class_members d cls key) as [cls1|e] eqn:Hpop; [|done].
    destruct (Hfree key d) as [Hkey Hlst]; [by left|].
    eapply IH; [done| |done].
    by eapply populate_class_members_keeps_member.
Qed.



(** What the class body defines under a name and is not a descriptor
    stays bound as it was, unless a ZeroOrMore declared as [P] has
    [P_lst] as that name: the list property alone is assigned without
    looking. *)
Theorem MetaOxmlElement_init_keeps_members bases clsdict items n v cls :
  items ≡ₚ map_to_list clsdict ->
  MetaOxmlElement_init bases clsdict items = Ok cls ->
  clsdict !! n = Some v ->
  (∀ d, v ≠ Declared d) ->
  (∀ key c, clsdict !! key = Some (Declared (DZeroOrMore c)) ->
            _list_prop_name key ≠ n) ->
  own cls !! n = Some v.
Proof.
  intros Hperm Hrun Hn Hv Hlst.
  eapply dispatch_keeps_member; [exact Hrun|done|].
  intros key d Hk. rewrite Hperm in Hk. apply elem_of_map_to_list in Hk.
  split.
  - intros ->. rewrite Hn in Hk. injection Hk as ->. by apply (Hv d).
  - intros c ->. by apply (Hlst key c).
Qed.

(** The property of a declared attribute or ZeroOrOne. *)
Definition property_of (d : descriptor) : member :=
  match d with
  | DZeroOrOne c => ChildProperty c
  | _ => AttrProperty d
  end.

Lemma populate_class_members_binds d cls key cls' :
  populate_class_members d cls key = Ok cls' ->
  (∀ c, d ≠ DZeroOrMore c) ->
  own cls' !! key = Some (property_of d).
Proof.
  intros Hrun Hd. destruct d as [a|a|c|c]; cbn in Hrun; unfold_installers.
  - injection Hrun as <-. cbn. by rewrite lookup_insert_eq.
  - injection Hrun as <-. cbn. by rewrite lookup_insert_eq.
  - by destruct (Hd c).
  - injection Hrun as <-. rewrite !_add_to_class_lookup_ne by names_ne.
    cbn. by rewrite lookup_insert_eq.
Qed.

Lemma dispatch_binds name d items : ∀ cls cls',
  dispatch items cls = Ok cls' ->
  NoDup items.*1 ->
  (name, Declared d) ∈ items ->
  (∀ c, d ≠ DZeroOrMore c) ->
  (∀ key c, (key, Declared (DZeroOrMore c)) ∈ items -> _list_prop_name key ≠ name) ->
  own cls' !! name = Some (property_of d).
Proof.
  induction items as [|[key value] rest IH]; intros cls cls' Hrun Hnd Hin Hd Hlst.
  - by apply elem_of_nil in Hin.
  - cbn in Hnd. apply NoDup_cons in Hnd as [Hkey Hnd].
    assert (Hrest : ∀ k c, (k, Declared (DZeroOrMore c)) ∈ rest ->
              _list_prop_name k ≠ name).
    { intros k c Hk. apply (Hlst k c). by right. }
    apply elem_of_cons in Hin as [[= <- <-]|Hin].
    + rewrite dispatch_Declared in Hrun.
      destruct (populate_class_members d cls name) as [cls1|e] eqn:Hpop; [|done].
      eapply dispatch_keeps_member; [exact Hrun| |].
      * by eapply populate_class_members_binds.
      * intros k d' Hk. split.
        -- intros ->. apply Hkey. apply list_elem_of_fmap.
           by exists (name, Declared d').
        -- intros c ->. by apply (Hrest k c).
    + cbn in Hrun. destruct value as [d'| | | | | | | | |]; try by eapply IH.
      destruct (populate_class_members d' cls key) as [cls1|e] eqn:Hpop; [|done].
      by eapply IH.
Qed.

(** After the metaclass has run, the name an attribute or a ZeroOrOne was
    declared under is bound to its property, in whatever order the items
    were met, unless a ZeroOrMore declared as [P] has [P_lst] as that
    name. *)
Theorem MetaOxmlElement_init_binds_property bases clsdict items name d cls :
  items ≡ₚ map_to_list clsdict ->
  MetaOxmlElement_init bases clsdict items = Ok cls ->
  clsdict !! name = Some (Declared d) ->
  (∀ c, d ≠ DZeroOrMore c) ->
  (∀ key c, clsdict !! key = Some (Declared (DZeroOrMore c)) ->
            _list_prop_name key ≠ name) ->
  own cls !! name = Some (property_of d).
Proof.
  intros Hperm Hrun Hn Hd Hlst.
  eapply dispatch_binds; [exact Hrun| | |done|].
  - rewrite Hperm. apply NoDup_fst_map_to_list.
  - rewrite Hperm. by apply elem_of_map_to_list.
  - intros key c Hk. rewrite Hperm in Hk. apply elem_of_map_to_list in Hk.
    by apply (Hlst key c).
Qed.

(** *** The properties on the example documents and classes *)

Ltac by_computation := apply (bool_decide_unpack _); vm_compute; exact I.

(** Inserting the loose [<p:tagA/>] into
    [<p:parent><p:tagC/></p:parent>], and adding a new one to it. *)
Lemma insert_child_successors_follow_witness :
  is_Some (tagC_doc !! 1%positive) ∧
  in_tagname_order qn_pml tagC_doc 1%positive (_successors tagA) ∧
  (∃ st', _insert_child qn_pml tagA 1%positive 3%positive tagC_doc = (Ok (), st') ∧
    successors_follow qn_pml st' 1%positive 3%positive (_successors tagA) ∧
    children_of st' 1%positive = [3; 2]%positive) ∧
  Forall (λ c, is_Some (tagC_doc !! c)) (children_of tagC_doc 1%positive) ∧
  ∃ child st', _add_child qn_pml tagA 1%positive [] tagC_doc = (Ok child, st') ∧
    tagC_doc !! child = None ∧
    tag_of st' child = Some (qn_pml "p:tagA") ∧
    successors_follow qn_pml st' 1%positive child (_successors tagA) ∧
    children_of st' 1%positive = [child; 2%positive].
Proof.
  assert (Hobj : is_Some (tagC_doc !! 1%positive)) by by_computation.
  assert (Hord : in_tagname_order qn_pml tagC_doc 1%positive (_successors tagA))
    by by_computation.
  assert (Hin : Forall (λ c, is_Some (tagC_doc !! c))
                  (children_of tagC_doc 1%positive)) by by_computation.
  split; [exact Hobj|]. split; [exact Hord|].
  destruct (insert_child_successors_follow qn_pml tagA 1%positive 3%positive
              tagC_doc Hobj) as [Hinsert Hadd].
  split; [|split; [exact Hin|]].
  - destruct Hinsert as (st' & Hrun & Hfollow & _ & Hscenario).
    exists st'. split; [exact Hrun|]. split; [exact (Hfollow Hord)|].
    apply (Hscenario "p:tagB" "p:tagC" 2%positive); by vm_compute.
  - destruct (Hadd [] Hin (Forall_nil_2 _))
      as (child & st' & Hrun & Hnew & Htag & Hfollow & _ & Hscenario).
    exists child, st'. split; [exact Hrun|]. split; [exact Hnew|].
    split; [exact Htag|]. split; [exact (Hfollow Hord)|].
    apply (Hscenario "p:tagB" "p:tagC" 2%positive); by vm_compute.
Defined.

(** On [<p:parent><p:tagC/><p:tagB/></p:parent>] the names
    [(tagB, tagC)] find the [tagB] child, which is not the first child
    bearing one of them. *)
Lemma first_child_found_in_not_document_order :
  first_child_found_in qn_pml unordered_doc 1%positive ["p:tagB"; "p:tagC"]
    = Some 3%positive ∧
  firstChildMatching qn_pml unordered_doc 1%positive ["p:tagB"; "p:tagC"]
    = Some 2%positive.
Proof. split; by vm_compute. Qed.

(** On the same parent, [<p:tagA/>] is inserted before [tagB] and so after
    [tagC], one of its successors. *)
Lemma insert_child_unordered_parent :
  ∃ st', _insert_child qn_pml tagA 1%positive 4%positive unordered_doc = (Ok (), st') ∧
    children_of st' 1%positive = [2; 4; 3]%positive ∧
    bears_any qn_pml st' (_successors tagA) 2%positive ∧
    ¬ successors_follow qn_pml st' 1%positive 4%positive (_successors tagA).
Proof.
  exists (inserted qn_pml 1%positive 4%positive (_successors tagA) unordered_doc).
  split; [by vm_compute|].
  assert (Hb : bears_any qn_pml
            (inserted qn_pml 1%positive 4%positive (_successors tagA) unordered_doc)
            (_successors tagA) 2%positive) by by_computation.
  split; [by vm_compute|]. split.
  - exact Hb.
  - intros (before & after & Hch & Hall).
    assert (Hc : children_of
              (inserted qn_pml 1%positive 4%positive (_successors tagA) unordered_doc)
              1%positive = [2; 4; 3]%positive) by by vm_compute.
    rewrite Hc in Hch.
    destruct before as [|b [|b' before]]; simplify_eq/=.
    + apply Forall_cons in Hall as [Hno _]. by apply Hno.
    + destruct before; simplify_eq/=. destruct before; simplify_eq/=.
Qed.

(** So is the element [_add_child] makes there. *)
Lemma add_child_unordered_parent :
  ∃ child st', _add_child qn_pml tagA 1%positive [] unordered_doc = (Ok child, st') ∧
    children_of st' 1%positive = [2%positive; child; 3%positive] ∧
    bears_any qn_pml st' (_successors tagA) 2%positive.
Proof.
  eexists _, _. rewrite _add_child_run. split; [reflexivity|].
  split; [by vm_compute|by_computation].
Qed.

(** Reading [reqAttr] where it is missing and where it is ["5"]. *)
Lemma required_get_attr_value_spec_witness :
  required_get_attr_value qn_pml reqAttr 1%positive family_doc
    = (Raise InvalidXmlError, family_doc) ∧
  required_get_attr_value qn_pml reqAttr 1%positive parent_doc
    = (Ok (PyInt 5), parent_doc).
Proof.
  split.
  - destruct (required_get_attr_value_spec qn_pml reqAttr 1%positive family_doc)
      as [Hmissing _].
    apply Hmissing. by vm_compute.
  - destruct (required_get_attr_value_spec qn_pml reqAttr 1%positive parent_doc)
      as [_ Hthere].
    rewrite (Hthere "5"); by vm_compute.
Defined.

(** Assigning 50 to [reqAttr], bounded by 1..42, on
    [<p:parent reqAttr="5" .../>]. *)
Lemma required_set_attr_value_invalid_witness :
  to_xml (_simple_type reqAttr) (PyInt 50) = Raise ValueError ∧
  required_set_attr_value qn_pml reqAttr 1%positive (PyInt 50) parent_doc
    = (Raise ValueError, parent_doc) ∧
  required_get_attr_value qn_pml reqAttr 1%positive
    (required_set_attr_value qn_pml reqAttr 1%positive (PyInt 50) parent_doc).2
    = (Ok (PyInt 5), parent_doc).
Proof.
  assert (Hbad : to_xml (_simple_type reqAttr) (PyInt 50) = Raise ValueError)
    by by vm_compute.
  split; [exact Hbad|].
  destruct (required_set_attr_value_invalid qn_pml reqAttr 1%positive (PyInt 50)
              ValueError parent_doc Hbad) as [Hset Hget].
  split; [exact Hset|]. rewrite Hget. by vm_compute.
Defined.

(** The other invalid assignments of the test suite. *)
Example required_set_attr_value_rejects :
  to_xml ST_IntegerType PyNone = Raise TypeError ∧
  to_xml ST_IntegerType (PyInt (-4)) = Raise ValueError ∧
  to_xml ST_IntegerType (PyStr "2") = Raise TypeError ∧
  to_xml ST_IntegerType (PyInt 24) = Ok "24".
Proof. repeat split; by vm_compute. Qed.

(** C5, at [rId = OptionalAttribute('r:id', XsdString)] on
    [<a:hlinkClick r:id="rId3"/>]: assigning the default, [None], returns
    normally and leaves the document as it was, the attribute still there
    under its Clark name, and the property still gives ["rId3"] rather
    than the default. *)
Theorem optional_set_default_leaves_prefixed_attribute :
  optional_set_attr_value qn_pml rId 1%positive (_default rId) hlink_doc
    = (Ok (), hlink_doc) ∧
  attrib_of hlink_doc 1%positive !! _clark_name qn_pml rId = Some "rId3" ∧
  optional_get_attr_value qn_pml rId 1%positive hlink_doc
    = (Ok (PyStr "rId3"), hlink_doc).
Proof.
  split; [|split].
  - apply optional_set_default_qualified; by vm_compute.
  - by vm_compute.
  - by vm_compute.
Qed.

(** With the plain name [optAttr] the default does remove the
    attribute. *)
Lemma optional_set_default_unqualified_witness :
  ∃ st', optional_set_attr_value qn_pml optAttr 1%positive PyNone parent_doc
           = (Ok (), st') ∧
    attrib_of st' 1%positive = {[ "reqAttr" := "5" ]} ∧
    optional_get_attr_value qn_pml optAttr 1%positive st' = (Ok PyNone, st').
Proof.
  destruct (optional_set_default_unqualified qn_pml optAttr 1%positive PyNone
              parent_doc) as (st' & Hset & Hattr & Hget & _); [done..|].
  exists st'. split; [done|]. split; [|done].
  rewrite Hattr. by vm_compute.
Defined.

(** Reading [optAttr] where it is missing, and assigning 36 over ["42"]. *)
Lemma optional_attribute_round_trip_witness :
  optional_get_attr_value qn_pml optAttr 1%positive family_doc
    = (Ok PyNone, family_doc) ∧
  (∃ st', optional_set_attr_value qn_pml optAttr 1%positive (PyInt 36) parent_doc
           = (Ok (), st') ∧
     attrib_of st' 1%positive !! "optAttr" = Some "36" ∧
     optional_get_attr_value qn_pml optAttr 1%positive st' = (Ok (PyInt 36), st')) ∧
  ∃ st', optional_set_attr_value qn_pml optAttr 1%positive (PyInt 7) parent_doc
           = (Ok (), st') ∧
    optional_get_attr_value qn_pml optAttr 1%positive st' = (Ok (PyInt 7), st').
Proof.
  split; [|split].
  - by apply (optional_attribute_round_trip qn_pml optAttr 1%positive family_doc).
  - destruct (optional_attribute_round_trip qn_pml optAttr 1%positive parent_doc)
      as (_ & Hset & _).
    destruct (Hset (PyInt 36) "36") as (st' & Hrun & Hattr & _ & Hget);
      [by_computation|by vm_compute..|].
    exists st'. split; [exact Hrun|]. split.
    + rewrite Hattr. by vm_compute.
    + apply Hget. by vm_compute.
  - destruct (optional_attribute_round_trip qn_pml optAttr 1%positive parent_doc)
      as (_ & _ & Hint & _).
    apply (Hint 7%Z); [reflexivity|by_computation|lia|reflexivity].
Defined.

(** C6 as stated fails for [optAttr]: [True] is not [None], differs from
    the default and passes the validation of the bounded integer type (a
    [bool] is an integer, and [True] counts as 1); it is stored as
    ["True"], which [from_xml] does not read. *)
Lemma optional_attribute_bool_not_read_back :
  is_None (PyBool true) = false ∧
  py_eq (PyBool true) (_default optAttr) = false ∧
  to_xml (_simple_type optAttr) (PyBool true) = Ok "True" ∧
  ∃ st', optional_set_attr_value qn_pml optAttr 1%positive (PyBool true) parent_doc
           = (Ok (), st') ∧
    attrib_of st' 1%positive !! "optAttr" = Some "True" ∧
    optional_get_attr_value qn_pml optAttr 1%positive st'
      = (Raise ValueError, st') ∧
    optional_get_attr_value qn_pml optAttr 1%positive st'
      ≠ (Ok (PyBool true), st').
Proof.
  split; [done|]. split; [done|]. split; [done|].
  eexists. split; [by vm_compute|]. split; [by vm_compute|].
  assert (Hget : ∀ st' : store,
            attrib_of st' 1%positive !! "optAttr" = Some "True" ->
            optional_get_attr_value qn_pml optAttr 1%positive st'
              = (Raise ValueError, st')).
  { intros st' Hattr.
    unfold optional_get_attr_value, get, mbind, M_bind, gets.
    change (_clark_name qn_pml optAttr) with "optAttr". by rewrite Hattr. }
  split.
  - apply Hget. by vm_compute.
  - rewrite Hget by by vm_compute. done.
Qed.

(** [get_or_add_child] for [zooChild] on an empty [<p:parent/>]. *)
Lemma get_or_add_child_idempotent_witness :
  well_formed_parent parent_doc 1%positive ∧
  ∃ child st',
    get_or_add_child qn_pml zooChild 1%positive parent_doc = (Ok child, st') ∧
    get_or_add_child qn_pml zooChild 1%positive st' = (Ok child, st') ∧
    children_of st' 1%positive = [child] ∧
    tag_of st' child = Some (qn_pml "p:zooChild").
Proof.
  assert (Hwf : well_formed_parent parent_doc 1%positive).
  { unfold well_formed_parent. by_computation. }
  split; [exact Hwf|].
  destruct (get_or_add_child_idempotent qn_pml zooChild 1%positive parent_doc Hwf)
    as (child & st' & Hfirst & Hsecond & _ & _ & Hnew).
  destruct Hnew as (_ & Hloose & _ & _ & before & after & Hold & Hch);
    [by vm_compute|].
  exists child, st'. split; [exact Hfirst|]. split; [exact Hsecond|]. split.
  - change (children_of parent_doc 1%positive) with (@nil loc) in Hold.
    symmetry in Hold. apply app_eq_nil in Hold as [-> ->]. exact Hch.
  - unfold tag_of. by rewrite Hloose.
Defined.

(** ... and on a parent that has one. *)
Example get_or_add_child_existing :
  get_or_add_child qn_pml zooChild 1%positive family_doc = (Ok 2%positive, family_doc).
Proof. by vm_compute. Qed.

(** Two [_add_child] calls for [zomChild] on an empty parent. *)
Example _add_child_twice :
  ∃ st1 st2,
    _add_child qn_pml zomChild 1%positive [] parent_doc = (Ok 2%positive, st1) ∧
    _add_child qn_pml zomChild 1%positive [] st1 = (Ok 3%positive, st2) ∧
    children_of st2 1%positive = [2; 3]%positive ∧
    findall st2 1%positive (qn_pml "p:zomChild") = [2; 3]%positive.
Proof.
  eexists _, _. split; [by vm_compute|]. split; [by vm_compute|].
  split; by vm_compute.
Qed.

(** [_remove_child] for [zooChild] on
    [<p:parent><p:zooChild/><p:zomChild/></p:parent>]. *)
Lemma remove_child_removes_all_witness :
  NoDup (children_of family_doc 1%positive) ∧
  ∃ st', _remove_child qn_pml zooChild 1%positive family_doc = (Ok (), st') ∧
    children_of st' 1%positive = [3]%positive ∧
    get_child_element qn_pml zooChild 1%positive st' = (Ok None, st').
Proof.
  assert (Hnd : NoDup (children_of family_doc 1%positive)) by by_computation.
  split; [exact Hnd|].
  destruct (remove_child_removes_all qn_pml zooChild 1%positive family_doc Hnd)
    as (st' & Hrun & Hch & _ & Hget & _).
  exists st'. split; [exact Hrun|]. split; [|exact Hget].
  rewrite Hch. by vm_compute.
Defined.

(** ... and on a parent without one, where nothing changes. *)
Example _remove_child_absent :
  _remove_child qn_pml zooChild 1%positive parent_doc = (Ok (), parent_doc).
Proof. by vm_compute. Qed.



(** Two repeating children declared as [foo] and [foo_lst]: when
    [foo_lst] is met first, the name is bound again by the list property
    of [foo]; when [foo] is met first, its list property is unbound. *)
Example clashing_names :
  (∃ cls,
     MetaOxmlElement_init BaseOxmlElement_names CT_Clash_dict
       [("foo_lst", Declared (DZeroOrMore zooChild));
        ("foo", Declared (DZeroOrMore zomChild))] = Ok cls ∧
     own cls !! "foo_lst" = Some (ListProperty zomChild)) ∧
  (∃ cls,
     MetaOxmlElement_init BaseOxmlElement_names CT_Clash_dict
       [("foo", Declared (DZeroOrMore zomChild));
        ("foo_lst", Declared (DZeroOrMore zooChild))] = Ok cls ∧
     hasattr cls "foo_lst" = false).
Proof. split; eexists; (split; [by vm_compute|by vm_compute]). Qed.

(** *** The further properties on the examples *)

(** Assigning 24 to [reqAttr] over ["5"]. *)
Lemma required_set_attr_value_writes_one_witness :
  ∃ st',
    required_set_attr_value qn_pml reqAttr 1%positive (PyInt 24) parent_doc
      = (Ok (), st') ∧
    attrib_of st' 1%positive = {[ "reqAttr" := "24"; "optAttr" := "42" ]} ∧
    required_get_attr_value qn_pml reqAttr 1%positive st' = (Ok (PyInt 24), st').
Proof.
  destruct (required_set_attr_value_writes_one qn_pml reqAttr 1%positive (PyInt 24)
              "24" parent_doc) as (st' & Hrun & Hattr & _ & _ & _ & Hget).
  - by_computation.
  - vm_compute. reflexivity.
  - exists st'. split; [exact Hrun|]. split.
    + rewrite Hattr. vm_compute. reflexivity.
    + rewrite Hget. reflexivity.
Defined.

(** Assigning the string ["2"] to the integer [optAttr]. *)
Lemma optional_set_attr_value_invalid_witness :
  optional_set_attr_value qn_pml optAttr 1%positive (PyStr "2") parent_doc
  = (Raise TypeError, parent_doc).
Proof.
  apply optional_set_attr_value_invalid; vm_compute; reflexivity.
Defined.


(** Inserting the [tagC] child of [<p:parent><p:tagB/><p:tagC/></p:parent>]
    again, with [tagB] as successor: it moves to the front. *)
Lemma insert_element_before_moves_witness :
  (is_Some (ordered_doc !! 1%positive) ∧ NoDup (children_of ordered_doc 1%positive)) ∧
  ∃ st', insert_element_before qn_pml 1%positive 3%positive ["p:tagB"] ordered_doc
           = (Ok 3%positive, st') ∧
    children_of st' 1%positive ≡ₚ [3; 2]%positive ∧
    NoDup (children_of st' 1%positive).
Proof.
  assert (Hobj : is_Some (ordered_doc !! 1%positive)) by by_computation.
  assert (Hnd : NoDup (children_of ordered_doc 1%positive)) by by_computation.
  split; [split; assumption|].
  destruct (insert_element_before_moves qn_pml 1%positive 3%positive ["p:tagB"]
              ordered_doc Hobj Hnd) as (st' & Hrun & Hperm & Hnd' & _).
  exists st'. split; [exact Hrun|]. split; [|exact Hnd'].
  rewrite Hperm. vm_compute. reflexivity.
Defined.

Example insert_element_before_moves_in_place :
  children_of (inserted qn_pml 1%positive 3%positive ["p:tagB"] ordered_doc) 1%positive
  = [3; 2]%positive.
Proof. vm_compute. reflexivity. Qed.

(** [_add_child] for [zomChild] on [<p:parent><p:zooChild/><p:zomChild/></p:parent>]. *)
Lemma add_child_adds_one_witness :
  well_formed_parent family_doc 1%positive ∧
  ∃ child st',
    _add_child qn_pml zomChild 1%positive [] family_doc = (Ok child, st') ∧
    children_of st' 1%positive = [2; 3; child]%positive ∧
    length (findall st' 1%positive (qn_pml "p:zomChild")) = 2 ∧
    well_formed_parent st' 1%positive.
Proof.
  assert (Hwf : well_formed_parent family_doc 1%positive).
  { unfold well_formed_parent. by_computation. }
  split; [exact Hwf|].
  destruct (add_child_adds_one qn_pml zomChild 1%positive family_doc Hwf)
    as (child & st' & Hrun & _ & _ & _ & _ & Hlen & Hwf' & Hlast).
  exists child, st'. split; [exact Hrun|]. split; [|split; [|exact Hwf']].
  - rewrite (Hlast eq_refl). reflexivity.
  - etrans; [exact Hlen|]. vm_compute. reflexivity.
Defined.


Lemma CT_Override_dict_no_ZeroOrMore key c :
  CT_Override_dict !! key = Some (Declared (DZeroOrMore c)) -> False.
Proof.
  intros Hkey. apply elem_of_map_to_list in Hkey. vm_compute in Hkey.
  repeat (apply elem_of_cons in Hkey as [Hkey|Hkey]);
    try (by apply elem_of_nil in Hkey); discriminate Hkey.
Qed.

(** A class that defines [_add_zooChild] itself keeps it, and gets the
    other members of its ZeroOrOne. *)
Lemma MetaOxmlElement_init_keeps_members_witness :
  ∃ cls,
    MetaOxmlElement_init BaseOxmlElement_names CT_Override_dict
      (map_to_list CT_Override_dict) = Ok cls ∧
    own cls !! "_add_zooChild" = Some UserDefined.
Proof.
  assert (Hn : CT_Override_dict !! "_add_zooChild" = Some UserDefined).
  { vm_compute. reflexivity. }
  assert (Hv : ∀ d, UserDefined ≠ Declared d) by (intros d; discriminate).
  assert (Hlst : ∀ key c,
            CT_Override_dict !! key = Some (Declared (DZeroOrMore c)) ->
            _list_prop_name key ≠ "_add_zooChild").
  { intros key c Hkey. destruct (CT_Override_dict_no_ZeroOrMore key c Hkey). }
  destruct (MetaOxmlElement_init BaseOxmlElement_names CT_Override_dict
              (map_to_list CT_Override_dict)) as [cls|e] eqn:Hrun.
  - exists cls. split; [reflexivity|].
    exact (MetaOxmlElement_init_keeps_members BaseOxmlElement_names
             CT_Override_dict (map_to_list CT_Override_dict) "_add_zooChild"
             UserDefined cls (reflexivity _) Hrun Hn Hv Hlst).
  - exfalso. clear Hn Hv Hlst. vm_compute in Hrun. discriminate Hrun.
Defined.

(** ... and [zooChild] is bound to the getter property. *)
Lemma MetaOxmlElement_init_binds_property_witness :
  ∃ cls,
    MetaOxmlElement_init BaseOxmlElement_names CT_Override_dict
      (map_to_list CT_Override_dict) = Ok cls ∧
    own cls !! "zooChild" = Some (ChildProperty zooChild).
Proof.
  assert (Hn : CT_Override_dict !! "zooChild" = Some (Declared (DZeroOrOne zooChild))).
  { vm_compute. reflexivity. }
  assert (Hd : ∀ c, DZeroOrOne zooChild ≠ DZeroOrMore c) by (intros c; discriminate).
  assert (Hlst : ∀ key c,
            CT_Override_dict !! key = Some (Declared (DZeroOrMore c)) ->
            _list_prop_name key ≠ "zooChild").
  { intros key c Hkey. destruct (CT_Override_dict_no_ZeroOrMore key c Hkey). }
  destruct (MetaOxmlElement_init BaseOxmlElement_names CT_Override_dict
              (map_to_list CT_Override_dict)) as [cls|e] eqn:Hrun.
  - exists cls. split; [reflexivity|].
    exact (MetaOxmlElement_init_binds_property BaseOxmlElement_names
             CT_Override_dict (map_to_list CT_Override_dict) "zooChild"
             (DZeroOrOne zooChild) cls (reflexivity _) Hrun Hn Hd Hlst).
  - exfalso. clear Hn Hd Hlst. vm_compute in Hrun. discriminate Hrun.
Defined.

(** On [<p:parent><p:tagB/><p:tagC/></p:parent>], in order, the names
    [(tagB, tagC)] find the first child bearing either. *)
Lemma first_child_found_in_in_order_witness :
  in_tagname_order qn_pml ordered_doc 1%positive ["p:tagB"; "p:tagC"] ∧
  first_child_found_in qn_pml ordered_doc 1%positive ["p:tagB"; "p:tagC"]
  = firstChildMatching qn_pml ordered_doc 1%positive ["p:tagB"; "p:tagC"].
Proof.
  assert (Hord : in_tagname_order qn_pml ordered_doc 1%positive ["p:tagB"; "p:tagC"])
    by by_computation.
  split; [exact Hord|].
  exact (first_child_found_in_in_order_firstChildMatching qn_pml ordered_doc
           1%positive ["p:tagB"; "p:tagC"] Hord).
Defined.


(** ** Comparing serialized XML ([XmlString]) *)

Module XmlString.

(** Characters are the 256 code points a [string] of this library can
    hold; an [XmlString] is taken line by line, as [splitlines] gives
    it. *)

(** [\w], without the UNICODE flag: a letter, a digit or an underscore. *)
Definition is_word (a : ascii) : bool :=
  let n := nat_of_ascii a in
  ((48 <=? n) && (n <=? 57)) || ((65 <=? n) && (n <=? 90))
  || ((97 <=? n) && (n <=? 122)) || (n =? 95).

(** [[\w:]]. *)
Definition is_name_char (a : ascii) : bool := is_word a || Ascii.eqb a ":"%char.

(** The white space [unicode.strip] and [unicode.split] act on. *)
Definition is_space (a : ascii) : bool :=
  let n := nat_of_ascii a in
  ((9 <=? n) && (n <=? 13)) || ((28 <=? n) && (n <=? 32))
  || (n =? 133) || (n =? 160).

(** The longest prefix of characters satisfying [p], and what follows. *)
Fixpoint span (p : ascii -> bool) (s : string) : string * string :=
  match s with
  | EmptyString => (EmptyString, EmptyString)
  | String a rest =>
      if p a then let '(taken, more) := span p rest in (String a taken, more)
      else (EmptyString, s)
  end.

(** [(.*?)(/?>)]: the shortest run up to a [>] or a [/>], within the
    line. *)
Fixpoint find_close (s : string) : option (string * string * string) :=
  match s with
  | EmptyString => None
  | String a rest =>
      if Ascii.eqb a ">"%char then Some (EmptyString, ">", rest)
      else
        match (if Ascii.eqb a "/"%char then
                 match rest with
                 | String b rest' =>
                     if Ascii.eqb b ">"%char then Some rest' else None
                 | EmptyString => None
                 end
               else None) with
        | Some rest' => Some (EmptyString, "/>", rest')
        | None =>
            if Ascii.eqb a "010"%char then None
            else '(attrs, close, more) ← find_close rest;
                 Some (String a attrs, close, more)
        end
  end.

(** [([^<]*</[\w:]+>)?]: the text and closing tag, when they follow. *)
Definition find_text (s : string) : option string :=
  let '(text, more) := span (λ a, negb (Ascii.eqb a "<"%char)) s in
  match more with
  | String lt (String slash more1) =>
      if Ascii.eqb lt "<"%char && Ascii.eqb slash "/"%char then
        let '(name, more2) := span is_name_char more1 in
        match name, more2 with
        | String _ _, String gt _ =>
            if Ascii.eqb gt ">"%char
            then Some (text +:+ "</" +:+ name +:+ ">")
            else None
        | _, _ => None
        end
      else None
  | _ => None
  end.

(** [_xml_elm_line_patt.match(line)], as its four groups. *)
Definition match_line (line : string)
    : option (string * string * string * option string) :=
  let '(indent, more) := span (λ a, Ascii.eqb a " "%char) line in
  match more with
  | String lt rest1 =>
      if Ascii.eqb lt "<"%char then
        let '(slash, rest2) :=
          match rest1 with
          | String s rest2 =>
              if Ascii.eqb s "/"%char then ("/", rest2) else ("", rest1)
          | EmptyString => ("", rest1)
          end in
        let '(name, rest3) := span is_name_char rest2 in
        match name with
        | EmptyString => None
        | String _ _ =>
            '(attrs, close, rest4) ← find_close rest3;
            Some (indent +:+ "<" +:+ slash +:+ name, attrs, close, find_text rest4)
        end
      else None
  | EmptyString => None
  end.

(** [XmlString._parse_line]; on a line the pattern does not match,
    [match] is [None] and asking for its groups raises. *)
Definition _parse_line (line : string)
    : result (string * string * string * option string) :=
  match match_line line with
  | Some groups => Ok groups
  | None => Raise AttributeError
  end.

(** [attrs.strip()]. *)
Fixpoint lstrip (s : string) : string :=
  match s with
  | EmptyString => EmptyString
  | String a rest => if is_space a then lstrip rest else s
  end.
Definition strip (s : string) : string :=
  String.rev (lstrip (String.rev (lstrip s))).

(** [attrs.split()]: the words between runs of white space. *)
Fixpoint split_go (cur : option string) (s : string) : list string :=
  match s with
  | EmptyString => option_list (String.rev <$> cur)
  | String a rest =>
      if is_space a
      then option_list (String.rev <$> cur) ++ split_go None rest
      else split_go (Some (String a (default EmptyString cur))) rest
  end.
Definition split (s : string) : list string := split_go None s.

(** [sorted], on strings. *)
Definition sorted (l : list string) : list string := merge_sort String.le l.

(** [XmlString._attr_seq]. *)
Definition _attr_seq (attrs : string) : list string :=
  let attrs := strip attrs in
  let attr_lst := split attrs in
  sorted attr_lst.

(** [XmlString._eq_elm_strs]. *)
Definition _eq_elm_strs (line line_2 : string) : result bool :=
  match _parse_line line with
  | Raise e => Raise e
  | Ok (front, attrs, close, text) =>
      match _parse_line line_2 with
      | Raise e => Raise e
      | Ok (front_2, attrs_2, close_2, text_2) =>
          if bool_decide (front ≠ front_2) then Ok false
          else if bool_decide (_attr_seq attrs ≠ _attr_seq attrs_2) then Ok false
          else if bool_decide (close ≠ close_2) then Ok false
          else if bool_decide (text ≠ text_2) then Ok false
          else Ok true
      end
  end.

(** The loop of [__eq__] over [zip(lines, lines_other)]. *)
Fixpoint eq_lines (pairs : list (string * string)) : result bool :=
  match pairs with
  | [] => Ok true
  | (line, line_other) :: rest =>
      match _eq_elm_strs line line_other with
      | Raise e => Raise e
      | Ok false => Ok false
      | Ok true => eq_lines rest
      end
  end.

(** [XmlString.__eq__], on the lines of the two strings. *)
Definition __eq__ (lines lines_other : list string) : result bool :=
  if bool_decide (length lines ≠ length lines_other) then Ok false
  else eq_lines (zip lines lines_other).

(** [XmlString.__ne__]. *)
Definition __ne__ (lines lines_other : list string) : result bool :=
  match __eq__ lines lines_other with
  | Ok b => Ok (negb b)
  | Raise e => Raise e
  end.

(** *** Properties of the comparison *)

Lemma sorted_eq_iff (l1 l2 : list string) : sorted l1 = sorted l2 ↔ l1 ≡ₚ l2.
Proof.
  unfold sorted. split.
  - intros Heq.
    rewrite <-(merge_sort_Permutation String.le l1), Heq.
    apply merge_sort_Permutation.
  - intros Hperm. apply (StronglySorted_unique String.le).
    + apply StronglySorted_merge_sort; apply _.
    + apply StronglySorted_merge_sort; apply _.
    + by rewrite !merge_sort_Permutation.
Qed.

(** Two lines compare equal exactly when the pattern matches both, they
    agree on the part up to the tag name, on the closing [>] or [/>] and
    on the text after it, and their attributes are the same words up to
    order.  The comparison raises exactly when the pattern fails on one
    of them. *)
Theorem eq_elm_strs_ignores_attribute_order line line_2 :
  (_eq_elm_strs line line_2 = Ok true ↔
   ∃ front attrs attrs_2 close text,
     match_line line = Some (front, attrs, close, text) ∧
     match_line line_2 = Some (front, attrs_2, close, text) ∧
     split (strip attrs) ≡ₚ split (strip attrs_2)) ∧
  (_eq_elm_strs line line_2 = Raise AttributeError ↔
   match_line line = None ∨ match_line line_2 = None).
Proof.
  unfold _eq_elm_strs, _parse_line.
  destruct (match_line line) as [[[[f a] c] t]|];
    [destruct (match_line line_2) as [[[[f2 a2] c2] t2]|]|].
  - split.
    + split.
      * intros H. repeat case_bool_decide; try done.
        exists f, a, a2, c, t.
        assert (f = f2) as <- by (by destruct (decide (f = f2))).
        assert (c = c2) as <- by (by destruct (decide (c = c2))).
        assert (t = t2) as <- by (by destruct (decide (t = t2))).
        split; [done|]. split; [done|]. apply sorted_eq_iff.
        by destruct (decide (_attr_seq a = _attr_seq a2)).
      * intros (f' & a' & a2' & c' & t' & [= <- <- <- <-] & [= <- <- <- <-] & Hperm).
        apply sorted_eq_iff in Hperm.
        repeat case_bool_decide; done.
    + split; [|by intros [?|?]].
      intros H. repeat case_bool_decide; done.
  - split; [split; [done|]|].
    + intros (? & ? & ? & ? & ? & _ & ? & _). done.
    + split; [by right|done].
  - split; [split; [done|]|].
    + intros (? & ? & ? & ? & ? & ? & _). done.
    + split; [by left|done].
Qed.

Lemma _eq_elm_strs_sym line line_2 :
  _eq_elm_strs line line_2 = _eq_elm_strs line_2 line.
Proof.
  unfold _eq_elm_strs, _parse_line.
  destruct (match_line line) as [[[[f a] c] t]|],
    (match_line line_2) as [[[[f2 a2] c2] t2]|]; try done.
  repeat case_bool_decide; congruence.
Qed.

Lemma eq_lines_sym lines : ∀ lines_other,
  eq_lines (zip lines lines_other) = eq_lines (zip lines_other lines).
Proof.
  induction lines as [|l lines IH]; intros [|l' lines']; try done.
  cbn. rewrite (_eq_elm_strs_sym l l'), IH. done.
Qed.

(** [__eq__] and [__ne__] give the same answer, or raise alike, with the
    two strings exchanged. *)
Theorem eq_symmetric lines lines_other :
  __eq__ lines lines_other = __eq__ lines_other lines ∧
  __ne__ lines lines_other = __ne__ lines_other lines.
Proof.
  assert (Heq : __eq__ lines lines_other = __eq__ lines_other lines).
  { unfold __eq__. rewrite eq_lines_sym.
    repeat case_bool_decide; congruence. }
  split; [done|]. unfold __ne__. by rewrite Heq.
Qed.

Lemma _eq_elm_strs_same line :
  _eq_elm_strs line line
  = match match_line line with
    | Some _ => Ok true
    | None => Raise AttributeError
    end.
Proof.
  unfold _eq_elm_strs, _parse_line.
  destruct (match_line line) as [[[[f a] c] t]|]; [|done].
  repeat case_bool_decide; done.
Qed.

(** A string is equal to itself when the pattern matches each of its
    lines; when it fails on one of them, comparing the string with itself
    raises [AttributeError]. *)
Theorem eq_same_string lines :
  (Forall (λ line, is_Some (match_line line)) lines ->
   __eq__ lines lines = Ok true) ∧
  (Exists (λ line, match_line line = None) lines ->
   __eq__ lines lines = Raise AttributeError).
Proof.
  unfold __eq__. rewrite bool_decide_false by (intros H; by apply H).
  split.
  - induction 1 as [|l lines [g Hl] _ IH]; [done|].
    cbn. by rewrite _eq_elm_strs_same, Hl.
  - induction lines as [|l lines IH]; intros Hex; [by inversion Hex|].
    cbn. rewrite _eq_elm_strs_same.
    destruct (match_line l) as [g|] eqn:Hl; [|done].
    apply IH. by apply Exists_cons in Hex as [?|?]; [congruence|].
Qed.

(** Lines with the attributes in another order; a line the pattern does
    not match. *)
Example eq_examples :
  __eq__ ["<p:parent b='2' a='1'>"; "  <p:c/>"; "</p:parent>"]
         ["<p:parent a='1' b='2'>"; "  <p:c/>"; "</p:parent>"] = Ok true ∧
  __ne__ ["<p:parent a='1'/>"] ["<p:parent a='2'/>"] = Ok true ∧
  __eq__ ["<p:a/>"] ["<p:a/>"; "<p:b/>"] = Ok false ∧
  __eq__ ["some text"] ["some text"] = Raise AttributeError.
Proof. repeat split; vm_compute; reflexivity. Qed.

Lemma eq_same_string_witness :
  Forall (λ line, is_Some (match_line line)) ["<p:parent>"; "  <p:c/>"; "</p:parent>"] ∧
  __eq__ ["<p:parent>"; "  <p:c/>"; "</p:parent>"]
         ["<p:parent>"; "  <p:c/>"; "</p:parent>"] = Ok true.
Proof.
  assert (H : Forall (λ line, is_Some (match_line line))
                ["<p:parent>"; "  <p:c/>"; "</p:parent>"]).
  { repeat constructor; vm_compute; eexists; reflexivity. }
  split; [exact H|].
  destruct (eq_same_string ["<p:parent>"; "  <p:c/>"; "</p:parent>"]) as [Hall _].
  exact (Hall H).
Defined.

(** *** The pattern on the lines of serialized elements *)

Fixpoint all_chars (p : ascii -> bool) (s : string) : bool :=
  match s with
  | EmptyString => true
  | String a rest => p a && all_chars p rest
  end.

Definition starts_with (p : ascii -> bool) (s : string) : bool :=
  match s with
  | EmptyString => false
  | String a _ => p a
  end.

Fixpoint ends_with_slash (s : string) : bool :=
  match s with
  | EmptyString => false
  | String a EmptyString => Ascii.eqb a "/"%char
  | String _ rest => ends_with_slash rest
  end.

(** [n] spaces of indentation. *)
Fixpoint spaces (n : nat) : string :=
  match n with
  | 0 => EmptyString
  | S n' => String " "%char (spaces n')
  end.

(** A character the lazy [.*?] takes: not a newline, and not the [>] that
    ends the tag. *)
Definition is_attr_char (a : ascii) : bool :=
  negb (Ascii.eqb a ">"%char) && negb (Ascii.eqb a "010"%char).

Lemma append_cons a s t : String a s +:+ t = String a (s +:+ t).
Proof. reflexivity. Qed.

Lemma append_nil t : EmptyString +:+ t = t.
Proof. reflexivity. Qed.

Lemma starts_with_app p s t :
  starts_with p (s +:+ t) = if s is EmptyString then starts_with p t else starts_with p s.
Proof. by destruct s. Qed.

Lemma span_app p s t :
  all_chars p s = true -> starts_with p t = false ->
  span p (s +:+ t) = (s, t).
Proof.
  intros Hs Ht. induction s as [|a s IH].
  - rewrite append_nil. destruct t as [|b t]; [done|]. cbn in *. by rewrite Ht.
  - cbn in Hs. apply andb_true_iff in Hs as [Ha Hs].
    rewrite append_cons. cbn. by rewrite Ha, IH.
Qed.

Lemma find_close_app attrs close tail :
  all_chars is_attr_char attrs = true ->
  close = ">" ∨ close = "/>" ->
  (close = ">" -> ends_with_slash attrs = false) ->
  find_close (attrs +:+ close +:+ tail) = Some (attrs, close, tail).
Proof.
  intros Hattrs Hclose. induction attrs as [|a attrs IH]; intros Hslash.
  - rewrite append_nil. by destruct Hclose as [-> | ->].
  - cbn in Hattrs. apply andb_true_iff in Hattrs as [Ha Hattrs].
    unfold is_attr_char in Ha. apply andb_true_iff in Ha as [Hgt Hnl].
    apply negb_true_iff in Hgt, Hnl.
    rewrite append_cons. cbn [find_close]. rewrite Hgt, Hnl.
    assert (Hrest : ends_with_slash attrs = false ∨ close = "/>").
    { destruct Hclose as [-> | ->]; [left|by right].
      specialize (Hslash eq_refl). cbn in Hslash. by destruct attrs. }
    assert (Hno : (if Ascii.eqb a "/"%char then
                     match attrs +:+ close +:+ tail with
                     | String b rest' =>
                         if Ascii.eqb b ">"%char then Some rest' else None
                     | EmptyString => None
                     end
                   else None) = None).
    { destruct (Ascii.eqb a "/"%char) eqn:Hs; [|done].
      destruct attrs as [|b attrs].
      - rewrite append_nil. destruct Hclose as [-> | ->]; [|done].
        specialize (Hslash eq_refl). cbn in Hslash. congruence.
      - rewrite append_cons. cbn in Hattrs.
        apply andb_true_iff in Hattrs as [Hb _]. unfold is_attr_char in Hb.
        apply andb_true_iff in Hb as [Hb _]. apply negb_true_iff in Hb.
        by rewrite Hb. }
    rewrite Hno, IH; [done|done|].
    intros ->. by destruct Hrest.
Qed.

(** The pattern matches the line of any element as it is serialized:
    indentation, [<] or [</], a name, attributes that hold no [>] and that
    a name character does not begin, then [>] or [/>].  Its groups are
    exactly these parts, and the text group is what [find_text] reads
    after them. *)
Theorem match_line_of_element n (closing : bool) name attrs close tail :
  name ≠ EmptyString ->
  all_chars is_name_char name = true ->
  all_chars is_attr_char attrs = true ->
  starts_with is_name_char attrs = false ->
  close = ">" ∨ close = "/>" ->
  (close = ">" -> ends_with_slash attrs = false) ->
  match_line (spaces n +:+ "<" +:+ (if closing then "/" else "")
              +:+ name +:+ attrs +:+ close +:+ tail)
  = Some (spaces n +:+ "<" +:+ (if closing then "/" else "") +:+ name,
          attrs, close, find_text tail).
Proof.
  intros Hname Hnchars Hattrs Hstart Hclose Hslash.
  unfold match_line.
  rewrite (span_app _ (spaces n)); [|by induction n|done].
  rewrite append_cons, append_nil. cbn [Ascii.eqb Bool.eqb].
  assert (Hspan : span is_name_char (name +:+ attrs +:+ close +:+ tail)
            = (name, attrs +:+ close +:+ tail)).
  { apply span_app; [done|]. rewrite starts_with_app.
    destruct attrs; [|done]. by destruct Hclose as [-> | ->]. }
  destruct name as [|c name]; [done|].
  destruct closing.
  - rewrite append_cons, append_nil. cbn [Ascii.eqb Bool.eqb].
    rewrite Hspan, find_close_app by done. done.
  - rewrite append_nil.
    assert (Hc : Ascii.eqb c "/"%char = false).
    { cbn in Hnchars. apply andb_true_iff in Hnchars as [Hc _].
      destruct (Ascii.eqb_spec c "/"%char) as [->|]; [|done].
      vm_compute in Hc. done. }
    remember (String c name +:+ attrs +:+ close +:+ tail) as line eqn:Hline.
    rewrite append_cons in Hline. destruct line as [|s rest2]; [done|].
    injection Hline as -> _. rewrite Hc, Hspan, find_close_app by done. done.
Qed.

Lemma match_line_of_element_witness :
  match_line "  <p:parent xmlns:p='http://ns/p' reqAttr='5'/>"
  = Some ("  <p:parent", " xmlns:p='http://ns/p' reqAttr='5'", "/>", None).
Proof.
  apply (match_line_of_element 2 false "p:parent"
           " xmlns:p='http://ns/p' reqAttr='5'" "/>" "");
    first [done | by right | vm_compute; reflexivity].
Defined.

End XmlString.

End Xmlchemy.
